(** * DDC: periodic sampling, discrete domains, chunks and tagged tuples

    A shallow embedding of the parts of the DDC library that its specification
    talks about, and the properties proved about them.

    - [Arith]: the machine integers and the real arithmetic the code computes
      with ([std::size_t], [int], [ddc::Real]).
    - [Periodic]: [ddc::PeriodicSampling] of [include/ddc/periodic_sampling.hpp].
    - [Domain]: multi-dimensional (strided) discrete domains and their iteration.
    - [Chunks]: chunks, chunk spans, slicing and [deepcopy].
    - [Tagged]: [TaggedTuple] of [include/taggedtuple.h]. *)

From Stdlib Require Import ZArith Lia PrimFloat Uint63.
From stdpp Require Import base numbers option list strings.

Local Open Scope Z_scope.

(** Discrete dimensions are nominal types in the source; a tag is its name. *)
Abbreviation Tag := string.

(* ===================================================================== *)
(** * Machine arithmetic *)
(* ===================================================================== *)

Module Arith.

(** [std::size_t] arithmetic is arithmetic modulo [2^64]. *)
Definition size_t_modulus : Z := 2 ^ 64.

Definition wrap_size_t (z : Z) : Z := z mod size_t_modulus.

(** [static_cast<int>(x)] of an unsigned value: the unique [int] congruent
    to [x] modulo [2^32]. *)
Definition int_modulus : Z := 2 ^ 32.

Definition int_max : Z := 2 ^ 31 - 1.

Definition static_cast_int (z : Z) : Z :=
  let r := z mod int_modulus in
  if r <=? int_max then r else r - int_modulus.

(** Subtraction of two [int]s, in two's complement.  (C++ leaves signed
    overflow undefined; the properties below are stated where the difference
    is representable, so that they do not rest on this choice.) *)
Definition int_sub (a b : Z) : Z := static_cast_int (a - b).

(** The operations of [ddc::Real] the sampling code uses.  The code is
    generic in the floating-point format ([double] or [float]); whatever is
    proved for every [RealOps] holds for IEEE-754 arithmetic in particular. *)
Class RealOps (Real : Type) : Type := {
  Radd : Real -> Real -> Real;
  Rsub : Real -> Real -> Real;
  Rmul : Real -> Real -> Real;
  Rdiv : Real -> Real -> Real;
  Rltb : Real -> Real -> bool;
  R_of_Z : Z -> Real
}.

(** Conversion of a (64-bit) integer to [double]. *)
Definition float_of_Z (z : Z) : float :=
  if z <? 0 then PrimFloat.opp (PrimFloat.of_uint63 (Uint63.of_Z (- z)))
  else PrimFloat.of_uint63 (Uint63.of_Z z).

(** IEEE-754 binary64, the [double] of the source. *)
#[export] Instance binary64 : RealOps float := {|
  Radd := PrimFloat.add;
  Rsub := PrimFloat.sub;
  Rmul := PrimFloat.mul;
  Rdiv := PrimFloat.div;
  Rltb := PrimFloat.ltb;
  R_of_Z := float_of_Z
|}.

(** [assert(c)]: the computation goes on only when [c] holds. *)
Definition assert (c : bool) : option unit := if c then Some tt else None.

End Arith.

(* ===================================================================== *)
(** * One-dimensional discrete domains *)
(* ===================================================================== *)

Module Domain1.
Import Arith.

(** Modelled from the spec: [ddc::DiscreteDomain<DDim>] over a single tag
    (the class is declared in [ddc/discrete_domain.hpp], which the sampling
    header only includes).  A domain is [(front, extents)] and denotes the
    indices [front, front + 1, ..., front + extents - 1]. *)
Record DiscreteDomain : Type := mkDomain {
  front : Z;
  extents : Z
}.

Definition size (d : DiscreteDomain) : Z := extents d.

Definition back (d : DiscreteDomain) : Z := front d + extents d - 1.

Definition contains (d : DiscreteDomain) (uid : Z) : bool :=
  (front d <=? uid) && (uid <? front d + extents d).

(** Modelled from the spec: [Dom(front, extents)] rejects a negative extent. *)
Definition make (f n : Z) : option DiscreteDomain :=
  _ ← assert (0 <=? n); Some (mkDomain f n).

(** Modelled from the spec: [take_first(n)] is the leading slice of [n]
    indices; slice bounds outside the domain are fatal. *)
Definition take_first (n : Z) (d : DiscreteDomain) : option DiscreteDomain :=
  _ ← assert ((0 <=? n) && (n <=? extents d));
  Some (mkDomain (front d) n).

(** Modelled from the spec: [take_last(n)] is the trailing slice of [n]
    indices. *)
Definition take_last (n : Z) (d : DiscreteDomain) : option DiscreteDomain :=
  _ ← assert ((0 <=? n) && (n <=? extents d));
  Some (mkDomain (front d + extents d - n) n).

(** Modelled from the spec: [remove(n_front, n_back)] advances the front by
    [n_front] and reduces the extent by [n_front + n_back]; it fails when the
    reduction would produce a negative extent. *)
Definition remove (n_front n_back : Z) (d : DiscreteDomain) : option DiscreteDomain :=
  _ ← assert (0 <=? extents d - n_front - n_back);
  Some (mkDomain (front d + n_front) (extents d - n_front - n_back)).

(** Modelled from the spec: [Elem + Vect]; an element is an unsigned index, so
    the result has to be non-negative. *)
Definition elem_add (e v : Z) : option Z :=
  _ ← assert (0 <=? e + v); Some (e + v).

Definition elem_sub (e v : Z) : option Z := elem_add e (- v).

End Domain1.

(* ===================================================================== *)
(** * Periodic sampling *)
(* ===================================================================== *)

Module Periodic.
Import Arith Domain1.

Section Sampling.

Context {Real : Type} `{RealOps Real}.

(** [PeriodicSampling<CDim>::Impl]: the three data members. *)
Record Impl : Type := mkImpl {
  m_origin : Real;
  m_step : Real;
  m_n_period : Z
}.

(** [Impl() noexcept : m_origin(0), m_step(1), m_n_period(2)]. *)
Definition Impl_default : Impl := mkImpl (R_of_Z 0) (R_of_Z 1) 2.

(** [Impl(Coordinate<CDim> origin, Real step, std::size_t n_period)]:
    the members are set, then [assert(step > 0); assert(n_period > 0);]. *)
Definition Impl_new (origin step : Real) (n_period : Z) : option Impl :=
  _ ← assert (Rltb (R_of_Z 0) step);
  _ ← assert (0 <? n_period);
  Some (mkImpl origin step n_period).

Definition origin (i : Impl) : Real := m_origin i.

(** [front()] is [discrete_element_type(0)]. *)
Definition Impl_front (i : Impl) : Z := 0.

Definition step (i : Impl) : Real := m_step i.

Definition n_period (i : Impl) : Z := m_n_period i.

(** The integer the code multiplies the step with:
    [static_cast<int>((uid + m_n_period / 2) % m_n_period)
       - static_cast<int>(m_n_period / 2)],
    the sum and the remainder being computed in [std::size_t]. *)
Definition period_offset (i : Impl) (uid : Z) : Z :=
  int_sub
    (static_cast_int (wrap_size_t (uid + m_n_period i / 2) mod m_n_period i))
    (static_cast_int (m_n_period i / 2)).

(** [coordinate(icoord)]:
    [m_origin + Coordinate<CDim>(<the offset above>) * m_step]. *)
Definition coordinate (i : Impl) (uid : Z) : Real :=
  Radd (m_origin i) (Rmul (R_of_Z (period_offset i uid)) (m_step i)).

(** The coordinate as the specification words it:
    [origin + (((uid + n_period/2) mod n_period) - n_period/2) * step]. *)
Definition coordinate_spec (i : Impl) (uid : Z) : Real :=
  Radd (m_origin i)
       (Rmul (R_of_Z ((uid + m_n_period i / 2) mod m_n_period i - m_n_period i / 2))
             (m_step i)).

(** [init(a, b, n, n_period)].  The period count is a [DiscreteVector]
    here; it is larger than one when it reaches the constructor, so its
    conversion to [std::size_t] keeps the value. *)
Definition init (a b : Real) (n n_period : Z) : option (Impl * DiscreteDomain) :=
  _ ← assert (Rltb a b);
  _ ← assert (1 <? n);
  _ ← assert (1 <? n_period);
  disc ← Impl_new a (Rdiv (Rsub b a) (R_of_Z (n - 1))) n_period;
  domain ← make (Impl_front disc) n;
  Some (disc, domain).

(** [init_ghosted(a, b, n, n_period, n_ghosts_before, n_ghosts_after)];
    the tuple is returned in the source's order:
    [(disc, main_domain, ghosted_domain, pre_ghost, post_ghost)]. *)
Definition init_ghosted (a b : Real) (n n_period n_ghosts_before n_ghosts_after : Z)
  : option (Impl * DiscreteDomain * DiscreteDomain * DiscreteDomain * DiscreteDomain) :=
  _ ← assert (Rltb a b);
  _ ← assert (1 <? n);
  _ ← assert (1 <? n_period);
  let discretization_step := Rdiv (Rsub b a) (R_of_Z (n - 1)) in
  disc ← Impl_new (Rsub a (Rmul (R_of_Z n_ghosts_before) discretization_step))
                  discretization_step n_period;
  ghosted_domain ← make (Impl_front disc) (n + n_ghosts_before + n_ghosts_after);
  pre_ghost ← take_first n_ghosts_before ghosted_domain;
  main_domain ← remove n_ghosts_before n_ghosts_after ghosted_domain;
  post_ghost ← take_last n_ghosts_after ghosted_domain;
  Some (disc, main_domain, ghosted_domain, pre_ghost, post_ghost).

(** [init_ghosted(a, b, n, n_period, n_ghosts)]. *)
Definition init_ghosted_sym (a b : Real) (n n_period n_ghosts : Z) :=
  init_ghosted a b n n_period n_ghosts n_ghosts.

(** The periodic mirrors of the ghosts, built as
    [examples/non_uniform_heat_equation.cpp] builds [x_pre_mirror] and
    [x_post_mirror]:
    [pre_mirror(pre_ghost.front() + domain.extents(), pre_ghost.extents())],
    [post_mirror(post_ghost.front() - domain.extents(), post_ghost.extents())]. *)
Definition pre_mirror (main_domain pre_ghost : DiscreteDomain) : option DiscreteDomain :=
  f ← elem_add (front pre_ghost) (extents main_domain);
  make f (extents pre_ghost).

Definition post_mirror (main_domain post_ghost : DiscreteDomain) : option DiscreteDomain :=
  f ← elem_sub (front post_ghost) (extents main_domain);
  make f (extents post_ghost).

End Sampling.

Arguments Impl Real : clear implicits.

(** ** Samplings in IEEE-754 double precision *)

(** A sampling of origin [0], step [1] and period [3]. *)
Definition sampling_3 : Impl float := mkImpl 0%float 1%float 3.

(** A sampling of origin [0], step [1] and period [2^33]. *)
Definition sampling_wide : Impl float := mkImpl 0%float 1%float (2 ^ 33).

(** The ghosted sampling of scenario S4: ten points and one ghost on each
    side. *)
Definition sampling_S4 : Impl float :=
  mkImpl (Rsub 0%float (Rmul (R_of_Z 1) (Rdiv (Rsub 1%float 0%float) (R_of_Z 9))))
         (Rdiv (Rsub 1%float 0%float) (R_of_Z 9)) 10.

End Periodic.

(* ===================================================================== *)
(** * Multi-dimensional discrete domains and their iteration *)
(* ===================================================================== *)

Module Domain.
Import Arith.

(** Modelled from the spec: a discrete element [Elem<D1,...,Dk>] is a tuple
    of unsigned indices, each labelled by its tag. *)
Definition DiscreteElement : Type := list (Tag * Z).

(** Modelled from the spec: [uid<D>()], the projection to one tag. *)
Fixpoint uid (t : Tag) (e : DiscreteElement) : option Z :=
  match e with
  | [] => None
  | (t', u) :: e' => if decide (t = t') then Some u else uid t e'
  end.

(** Modelled from the spec: [select<D1,...>(e)], the sub-element of the
    requested tags, in the requested order. *)
Definition select (ts : list Tag) (e : DiscreteElement) : DiscreteElement :=
  omap (fun t => u ← uid t e; Some (t, u)) ts.

(** Modelled from the spec: a discrete domain [Dom<D1,...,Dk>] is a tagged
    hyper-rectangle, one [(front, extents)] range per tag, in declaration
    order. *)
Definition DiscreteDomain : Type := list (Tag * Domain1.DiscreteDomain).

(** Modelled from the spec: a strided discrete domain carries in addition a
    stride per dimension. *)
Record StridedAxis : Type := mkAxis {
  axis_tag : Tag;
  axis_range : Domain1.DiscreteDomain;
  axis_stride : Z
}.

Definition StridedDiscreteDomain : Type := list StridedAxis.

Definition tags (d : DiscreteDomain) : list Tag := fst <$> d.

Definition strided_tags (d : StridedDiscreteDomain) : list Tag := axis_tag <$> d.

Definition product_of (l : list Z) : Z := foldr Z.mul 1 l.

(** Modelled from the spec: size = product of extents. *)
Definition size (d : DiscreteDomain) : Z :=
  product_of ((fun a => Domain1.extents a.2) <$> d).

(** [ceil(e / t)] for [e >= 0] and [t > 0]. *)
Definition ceil_div (e t : Z) : Z := (e + t - 1) / t.

Definition axis_size (a : StridedAxis) : Z :=
  ceil_div (Domain1.extents (axis_range a)) (axis_stride a).

(** Modelled from the spec: size = product of [ceil(extents / stride)]. *)
Definition strided_size (d : StridedDiscreteDomain) : Z :=
  product_of (axis_size <$> d).

(** The indices one dimension contributes. *)
Definition range_points (r : Domain1.DiscreteDomain) : list Z :=
  seqZ (Domain1.front r) (Domain1.extents r).

(** Modelled from the spec: a strided dimension visits [front + k * stride]
    for [0 <= k < size_per_dim]. *)
Definition axis_points (a : StridedAxis) : list Z :=
  (fun k => Domain1.front (axis_range a) + k * axis_stride a) <$> seqZ 0 (axis_size a).

(** Nested iteration: the first (outermost) tag iterates slowest, the last
    one fastest. *)
Fixpoint iterate (axes : list (Tag * list Z)) : list DiscreteElement :=
  match axes with
  | [] => [[]]
  | (t, us) :: rest => u ← us; (fun e => (t, u) :: e) <$> iterate rest
  end.

(** Modelled from the spec: the elements of a domain in iteration order. *)
Definition elements (d : DiscreteDomain) : list DiscreteElement :=
  iterate ((fun a => (a.1, range_points a.2)) <$> d).

Definition strided_elements (d : StridedDiscreteDomain) : list DiscreteElement :=
  iterate ((fun a => (axis_tag a, axis_points a)) <$> d).

(** Modelled from the spec: [contains(e)]; the tags of [e], not their
    positions, select the components. *)
Definition contains (d : DiscreteDomain) (e : DiscreteElement) : bool :=
  forallb (fun a => match uid a.1 e with
                    | Some u => Domain1.contains a.2 u
                    | None => false
                    end) d.

Definition axis_contains (a : StridedAxis) (u : Z) : bool :=
  Domain1.contains (axis_range a) u
  && ((u - Domain1.front (axis_range a)) mod axis_stride a =? 0).

Definition strided_contains (d : StridedDiscreteDomain) (e : DiscreteElement) : bool :=
  forallb (fun a => match uid (axis_tag a) e with
                    | Some u => axis_contains a u
                    | None => false
                    end) d.

(** An element of exactly the domain's tags, in the domain's order. *)
Definition tagged_as (ts : list Tag) (e : DiscreteElement) : Prop := fst <$> e = ts.

(** Well-formed domains: distinct tags, non-negative extents, and positive
    strides. *)
Definition valid (d : DiscreteDomain) : Prop :=
  NoDup (tags d) /\ Forall (fun a => 0 <= Domain1.extents a.2) d.

Definition strided_valid (d : StridedDiscreteDomain) : Prop :=
  NoDup (strided_tags d)
  /\ Forall (fun a => 0 <= Domain1.extents (axis_range a) /\ 0 < axis_stride a) d.

(** The elements of a domain, as iteration hands them to the kernel. *)
Definition element_of (d : DiscreteDomain) (e : DiscreteElement) : Prop :=
  tagged_as (tags d) e /\ contains d e = true.

Definition strided_element_of (d : StridedDiscreteDomain) (e : DiscreteElement) : Prop :=
  tagged_as (strided_tags d) e /\ strided_contains d e = true.

(** A contiguous domain is a strided domain of stride one. *)
Definition to_strided (d : DiscreteDomain) : StridedDiscreteDomain :=
  (fun a => mkAxis a.1 a.2 1) <$> d.

Section ForEach.

Context {State : Type}.

(** Modelled from the spec: [for_each(domain, kernel)], the serial loop. *)
Definition for_each_in (els : list DiscreteElement)
    (kernel : DiscreteElement -> State -> State) (st : State) : State :=
  foldl (fun s e => kernel e s) st els.

(** Modelled from the spec: [parallel_for_each(exec, domain, kernel)].  The
    execution space runs the kernel over the linear range [0, size) in an
    order of its own choosing, [sched]; the linear index [i] stands for the
    [i]-th element in iteration order.  An index outside the range is a
    back-end error. *)
Definition parallel_for_each_in (sched : list nat) (els : list DiscreteElement)
    (kernel : DiscreteElement -> State -> State) (st : State) : option State :=
  foldl (fun acc i => s ← acc; e ← els !! i; Some (kernel e s)) (Some st) sched.

End ForEach.

Definition for_each {State} (d : DiscreteDomain) := @for_each_in State (elements d).

Definition strided_for_each {State} (d : StridedDiscreteDomain) :=
  @for_each_in State (strided_elements d).

Definition parallel_for_each {State} (sched : list nat) (d : DiscreteDomain) :=
  @parallel_for_each_in State sched (elements d).

Definition strided_parallel_for_each {State} (sched : list nat) (d : StridedDiscreteDomain) :=
  @parallel_for_each_in State sched (strided_elements d).

(** A schedule of the execution space: every linear index of the range, once. *)
Definition schedule_of (n : Z) (sched : list nat) : Prop :=
  sched ≡ₚ seq 0 (Z.to_nat n).

(** The kernel that records the element it is invoked with. *)
Definition record_call (e : DiscreteElement) (log : list DiscreteElement) :=
  log ++ [e].

(** The sequence [calls] of kernel invocations has one invocation for each
    element satisfying [member], and none else; there are [n] of them. *)
Definition once_per_element (member : DiscreteElement -> Prop) (n : Z)
    (calls : list DiscreteElement) : Prop :=
  NoDup calls
  /\ (forall e, e ∈ calls <-> member e)
  /\ Z.of_nat (length calls) = n.

(** The strided domain of the test [TwoDimensionsStrided]: front [(0, 0)],
    extents [(10, 12)], strides [(3, 3)]. *)
Definition strided_test_domain : StridedDiscreteDomain :=
  [ mkAxis "DDimX" (Domain1.mkDomain 0 10) 3;
    mkAxis "DDimY" (Domain1.mkDomain 0 12) 3 ].

End Domain.

(* ===================================================================== *)
(** * Chunks and chunk spans *)
(* ===================================================================== *)

Module Chunks.
Import Arith Domain.

(** The range a domain gives to a tag ([select<D>(dom)]). *)
Fixpoint domain_range (t : Tag) (d : DiscreteDomain) : option Domain1.DiscreteDomain :=
  match d with
  | [] => None
  | (t', r) :: d' => if decide (t = t') then Some r else domain_range t d'
  end.

(** Modelled from the spec: the default layout is row-major over the declared
    tag order (the last tag varies fastest): the stride of a dimension is the
    size of the dimensions after it. *)
Fixpoint layout_right (d : DiscreteDomain) : list Z :=
  match d with
  | [] => []
  | _ :: rest => size rest :: layout_right rest
  end.

(** The address arithmetic of a layout: the offset of an element from the
    domain's front, bounds-checked in every dimension. *)
Fixpoint linear (d : DiscreteDomain) (strides : list Z) (e : DiscreteElement) : option Z :=
  match d, strides with
  | [], [] => Some 0
  | (t, r) :: d', s :: strides' =>
      u ← uid t e;
      _ ← assert (Domain1.contains r u);
      rest ← linear d' strides' e;
      Some ((u - Domain1.front r) * s + rest)
  | _, _ => None
  end.

(** Dropping the dimension [t] at index [u]: the remaining domain and
    strides, and the offset of the slice. *)
Fixpoint slice_axis (t : Tag) (u : Z) (d : DiscreteDomain) (strides : list Z)
  : option (DiscreteDomain * list Z * Z) :=
  match d, strides with
  | (t', r) :: d', s :: strides' =>
      if decide (t = t') then
        _ ← assert (Domain1.contains r u);
        Some (d', strides', (u - Domain1.front r) * s)
      else
        '(d'', strides'', off) ← slice_axis t u d' strides';
        Some ((t', r) :: d'', s :: strides'', off)
  | _, _ => None
  end.

Definition subrange (sub r : Domain1.DiscreteDomain) : bool :=
  (0 <=? Domain1.extents sub)
  && (Domain1.front r <=? Domain1.front sub)
  && (Domain1.front sub + Domain1.extents sub <=? Domain1.front r + Domain1.extents r).

(** Restricting the dimension [t] to the range [sub]: the new domain (strides
    are kept) and the offset of the sub-rectangle. *)
Fixpoint restrict_axis (t : Tag) (sub : Domain1.DiscreteDomain)
    (d : DiscreteDomain) (strides : list Z) : option (DiscreteDomain * Z) :=
  match d, strides with
  | (t', r) :: d', s :: strides' =>
      if decide (t = t') then
        _ ← assert (subrange sub r);
        Some ((t', sub) :: d', (Domain1.front sub - Domain1.front r) * s)
      else
        '(d'', off) ← restrict_axis t sub d' strides';
        Some ((t', r) :: d'', off)
  | _, _ => None
  end.

(** Modelled from the spec: domains are congruent when they have the same
    tag set and the same extents, in any tag order. *)
Definition congruent (d1 d2 : DiscreteDomain) : bool :=
  bool_decide (length d1 = length d2)
  && forallb (fun a => match domain_range a.1 d2 with
                       | Some r => Domain1.extents a.2 =? Domain1.extents r
                       | None => false
                       end) d1.

Section Chunk.

Context {T : Type}.

(** Modelled from the spec: a chunk span is a non-owning view: a domain, a
    layout (the offset of the domain's front in the buffer and one stride
    per dimension: [layout_right] or [layout_stride]) and the buffer it
    borrows. *)
Record ChunkSpan : Type := mkSpan {
  span_domain : DiscreteDomain;
  span_offset : Z;
  span_strides : list Z;
  span_data : list T
}.

(** Modelled from the spec: a chunk owns a flat buffer sized to
    [domain.size()], laid out row-major in declared tag order. *)
Record Chunk : Type := mkChunk {
  chunk_domain : DiscreteDomain;
  chunk_data : list T
}.

Definition Chunk_new (d : DiscreteDomain) (init : T) : Chunk :=
  mkChunk d (replicate (Z.to_nat (size d)) init).

Definition chunk_wf (c : Chunk) : Prop :=
  valid (chunk_domain c) /\ Z.of_nat (length (chunk_data c)) = size (chunk_domain c).

Definition span_view (c : Chunk) : ChunkSpan :=
  mkSpan (chunk_domain c) 0 (layout_right (chunk_domain c)) (chunk_data c).

(** The position in the buffer of the element [e]; out-of-bounds access is
    trapped. *)
Definition span_index (s : ChunkSpan) (e : DiscreteElement) : option nat :=
  off ← linear (span_domain s) (span_strides s) e;
  _ ← assert ((0 <=? span_offset s + off)
              && (span_offset s + off <? Z.of_nat (length (span_data s))));
  Some (Z.to_nat (span_offset s + off)).

(** Modelled from the spec: [span(e)], read and write. *)
Definition span_at (s : ChunkSpan) (e : DiscreteElement) : option T :=
  i ← span_index s e; span_data s !! i.

Definition span_set (s : ChunkSpan) (e : DiscreteElement) (v : T) : option ChunkSpan :=
  i ← span_index s e;
  Some (mkSpan (span_domain s) (span_offset s) (span_strides s) (<[i := v]> (span_data s))).

Definition chunk_at (c : Chunk) (e : DiscreteElement) : option T :=
  span_at (span_view c) e.

Definition chunk_set (c : Chunk) (e : DiscreteElement) (v : T) : option Chunk :=
  s ← span_set (span_view c) e v;
  Some (mkChunk (chunk_domain c) (span_data s)).

(** [extent<D>()]. *)
Definition span_extent (s : ChunkSpan) (t : Tag) : option Z :=
  r ← domain_range t (span_domain s); Some (Domain1.extents r).

Definition chunk_extent (c : Chunk) (t : Tag) : option Z :=
  span_extent (span_view c) t.

(** Modelled from the spec: [span[e]] for an element [e] of one tag: the
    dimension is dropped, the layout of the remaining ones may be strided. *)
Definition slice_elem (s : ChunkSpan) (t : Tag) (u : Z) : option ChunkSpan :=
  '(d, strides, off) ← slice_axis t u (span_domain s) (span_strides s);
  Some (mkSpan d (span_offset s + off) strides (span_data s)).

(** Modelled from the spec: [span[subdomain]] for a subdomain over one tag:
    all tags are kept, the strides are those of the sub-rectangle in the
    parent's buffer. *)
Definition slice_dom (s : ChunkSpan) (t : Tag) (sub : Domain1.DiscreteDomain)
  : option ChunkSpan :=
  '(d, off) ← restrict_axis t sub (span_domain s) (span_strides s);
  Some (mkSpan d (span_offset s + off) (span_strides s) (span_data s)).

(** Modelled from the spec: [deepcopy(dst, src)] copies value by value,
    iterating in the destination's order, and requires congruent domains. *)
Definition deepcopy (dst src : ChunkSpan) : option ChunkSpan :=
  _ ← assert (congruent (span_domain dst) (span_domain src));
  foldl (fun acc e => d ← acc; v ← span_at src e; span_set d e v)
        (Some dst) (elements (span_domain dst)).

Definition chunk_deepcopy (dst src : Chunk) : option Chunk :=
  s ← deepcopy (span_view dst) (span_view src);
  Some (mkChunk (chunk_domain dst) (span_data s)).

(** Two spans of the same domain and layout over buffers of the same
    length. *)
Definition same_shape (s s' : ChunkSpan) : Prop :=
  span_domain s' = span_domain s
  /\ span_offset s' = span_offset s
  /\ span_strides s' = span_strides s
  /\ length (span_data s') = length (span_data s).

(** A chunk filled element by element, as the tests fill theirs. *)
Definition Chunk_fill (d : DiscreteDomain) (f : DiscreteElement -> T) : Chunk :=
  mkChunk d (f <$> elements d).

End Chunk.

Arguments ChunkSpan T : clear implicits.
Arguments Chunk T : clear implicits.

(** The fixtures of [tests/block.cpp], with the value [1. * ii + .001 * jj]
    scaled to the integer [1000 * ii + jj]. *)
Definition test_value (e : DiscreteElement) : Z :=
  1000 * default 0 (uid "X" e) + default 0 (uid "Vx" e).

Definition dom_XVx (f n : Z) : DiscreteDomain :=
  [("X", Domain1.mkDomain f n); ("Vx", Domain1.mkDomain f n)].

Definition dom_VxX (f n : Z) : DiscreteDomain :=
  [("Vx", Domain1.mkDomain f n); ("X", Domain1.mkDomain f n)].

(** [DBlockXVxTest]: front [(0, 0)], extents [(101, 101)]. *)
Definition block_XVx : Chunk Z := Chunk_fill (dom_XVx 0 101) test_value.

(** [NonZeroDBlockXVxTest]: front [(100, 100)], extents [(101, 101)]. *)
Definition block_nonzero : Chunk Z := Chunk_fill (dom_XVx 100 101) test_value.

(** [block_reordered] before the copy. *)
Definition block_VxX : Chunk Z := Chunk_new (dom_VxX 0 101) 0.

(** Two chunks over [X] of extent [2], one from front [0], one from front
    [5]: the same tag and the same extent on another range. *)
Definition block_X_from_0 : Chunk Z := Chunk_new [("X", Domain1.mkDomain 0 2)] 0.

Definition block_X_from_5 : Chunk Z :=
  Chunk_fill [("X", Domain1.mkDomain 5 2)] test_value.

End Chunks.

(* ===================================================================== *)
(** * Tagged tuples *)
(* ===================================================================== *)

Module Tagged.

Section TaggedTuple.

(** The tags are the types of [TypeSeq<Tags...>]; the element types of
    [TypeSeq<ElementTypes...>] are embedded in one type [ElementType] (a sum
    of the types used, say). *)
Context {TagT : Type} `{EqDecision TagT} {ElementType : Type}.

(** Modelled from the spec: [detail::RankIn<SingleType<QueryTag>,
    TypeSeq<Tags...>>::val] (declared in [taggedarray.h], which the header
    includes): the rank of the query tag in the tag list; a tag that is not
    in the list has no rank (the program does not compile). *)
Fixpoint RankIn (q : TagT) (ts : list TagT) : option nat :=
  match ts with
  | [] => None
  | t :: ts' => if decide (q = t) then Some 0%nat else S <$> RankIn q ts'
  end.

(** [TaggedTuple<TypeSeq<ElementTypes...>, TypeSeq<Tags...>>]: the tag list
    is part of the type, [m_values] is the [std::tuple] of the values. *)
Record TaggedTuple : Type := mkTuple {
  tuple_tags : list TagT;
  m_values : list ElementType
}.

(** [tag_rank_v<QueryTag, TaggedTuple<...>>]. *)
Definition tag_rank_v (q : TagT) (t : TaggedTuple) : option nat :=
  RankIn q (tuple_tags t).

(** [size()] is [sizeof...(Tags)]. *)
Definition tuple_size (t : TaggedTuple) : nat := length (tuple_tags t).

(** [TaggedTuple(Params&&... params) : m_values(std::forward<Params>(params)...)]:
    the tuple is initialised with the parameters in the order given; it
    takes one parameter per element. *)
Definition TaggedTuple_new (ts : list TagT) (params : list ElementType)
  : option TaggedTuple :=
  if decide (length params = length ts) then Some (mkTuple ts params) else None.

(** [std::get<N>(m_values)]. *)
Definition std_get (n : nat) (vs : list ElementType) : option ElementType := vs !! n.

(** [get<QueryTag>()] is [std::get<tag_rank_v<QueryTag, TaggedTuple>>(m_values)]. *)
Definition get (q : TagT) (t : TaggedTuple) : option ElementType :=
  n ← tag_rank_v q t; std_get n (m_values t).

End TaggedTuple.

Arguments TaggedTuple TagT ElementType : clear implicits.

End Tagged.

(* ===================================================================== *)
(** * Periodic sampling: the free functions *)
(* ===================================================================== *)

Module PeriodicQueries.
Import Arith Domain1 Periodic.

Section Queries.

Context {Real : Type} `{RealOps Real}.

(** The free functions of [periodic_sampling.hpp] read the sampling of the
    tag in the registry, [discrete_space<DDim>()], which is not part of the
    header: the registered sampling is the parameter [space]. *)

(** [distance_at_left(DiscreteElement<DDim>)] is
    [Coordinate(step<DDim>())], whatever the element. *)
Definition distance_at_left (space : Impl Real) (e : Z) : Real := step space.

(** [distance_at_right(DiscreteElement<DDim>)], likewise. *)
Definition distance_at_right (space : Impl Real) (e : Z) : Real := step space.

(** [rmin(d)] is [coordinate(d.front())]. *)
Definition rmin (space : Impl Real) (d : DiscreteDomain) : Real :=
  coordinate space (front d).

(** [rmax(d)] is [coordinate(d.back())]. *)
Definition rmax (space : Impl Real) (d : DiscreteDomain) : Real :=
  coordinate space (back d).

(** [rlength(d)] is [rmax(d) - rmin(d)]. *)
Definition rlength (space : Impl Real) (d : DiscreteDomain) : Real :=
  Rsub (rmax space d) (rmin space d).

End Queries.

(** The sampling [init(0, 1, 10, 10)] returns, in double precision. *)
Definition sampling_init_10 : Impl float :=
  mkImpl 0%float (Rdiv (Rsub 1%float 0%float) (R_of_Z 9)) 10.

End PeriodicQueries.

(* ===================================================================== *)
(** * Tagged tuples: writing through [get] *)
(* ===================================================================== *)

Module TaggedWrite.
Import Tagged.

Section Write.

Context {TagT : Type} `{EqDecision TagT} {ElementType : Type}.

(** [get<QueryTag>(tuple) = v]: the non-const [get] returns a reference to
    [std::get<tag_rank_v<QueryTag, TaggedTuple>>(m_values)], and the
    assignment stores [v] in that component. *)
Definition set (q : TagT) (v : ElementType) (t : TaggedTuple TagT ElementType)
  : option (TaggedTuple TagT ElementType) :=
  n ← tag_rank_v q t;
  _ ← m_values t !! n;
  Some (mkTuple (tuple_tags t) (<[n := v]> (m_values t))).

End Write.

End TaggedWrite.

(* ===================================================================== *)
(** * The helpers of the heat-equation example *)
(* ===================================================================== *)

Module HeatEquation.
Import Arith.

Section Helpers.

Context {Real : Type} `{RealOps Real}.

(** [std::is_sorted(first, last)]: no element is less than its
    predecessor. *)
Fixpoint is_sorted (l : list Real) : bool :=
  match l with
  | x :: ((y :: _) as rest) => negb (Rltb y x) && is_sorted rest
  | _ => true
  end.

(** The first loop of [generate_random_vector]:
    [points[i] = lower_bound + i * dx] for [0 <= i < n]. *)
Definition uniform_points (n : Z) (lower_bound dx : Real) : list Real :=
  (fun i => Radd lower_bound (Rmul (R_of_Z i) dx)) <$> seqZ 0 n.

(** The second loop, [for (int i = 1; i < n - 1; ++i) points[i] += dis(gen) * dx;]
    the [k]-th value drawn from the generator is [draws k]. *)
Definition perturb (draws : nat -> Real) (n : Z) (dx : Real) (points : list Real)
  : list Real :=
  foldl (fun pts k => alter (fun p => Radd p (Rmul (draws k) dx)) (S k) pts)
        points (seq 0 (Z.to_nat (n - 2))).

(** [generate_random_vector(n, lower_bound, higher_bound)]; the random
    generator is the stream [draws] of the values it hands out. *)
Definition generate_random_vector (draws : nat -> Real) (n : Z)
    (lower_bound higher_bound : Real) : option (list Real) :=
  _ ← assert (1 <? n);
  _ ← assert (Rltb lower_bound higher_bound);
  let dx := Rdiv (Rsub higher_bound lower_bound) (R_of_Z (n - 1)) in
  let points := perturb draws n dx (uniform_points n lower_bound dx) in
  _ ← assert (is_sorted points);
  Some points.

(** [periodic_extrapolation_left(gw, points)]: [std::transform] reads [gw]
    points from [std::next(points.crbegin())] on, that is backwards from the
    last but one, and writes through [ghost.rbegin()], back to front. *)
Definition periodic_extrapolation_left (gw : Z) (points : list Real)
  : option (list Real) :=
  _ ← assert (0 <=? gw);
  _ ← assert (gw <? Z.of_nat (length points));
  _ ← assert (is_sorted points);
  if 0 <? gw then
    back ← last points;
    front ← head points;
    let period := Rsub back front in
    Some (reverse ((fun pos => Rsub pos period)
                     <$> take (Z.to_nat gw) (drop 1 (reverse points))))
  else Some (replicate (Z.to_nat gw) (R_of_Z 0)).

(** [periodic_extrapolation_right(gw, points)]: [std::transform] reads [gw]
    points from [std::next(points.cbegin())] on and writes from
    [ghost.begin()] on. *)
Definition periodic_extrapolation_right (gw : Z) (points : list Real)
  : option (list Real) :=
  _ ← assert (0 <=? gw);
  _ ← assert (gw <? Z.of_nat (length points));
  _ ← assert (is_sorted points);
  if 0 <? gw then
    back ← last points;
    front ← head points;
    let period := Rsub back front in
    Some ((fun pos => Radd pos period) <$> take (Z.to_nat gw) (drop 1 points))
  else Some (replicate (Z.to_nat gw) (R_of_Z 0)).

End Helpers.

End HeatEquation.

(* ===================================================================== *)
(** * Kernels of the tests *)
(* ===================================================================== *)

Module Kernels.
Import Arith Domain Chunks.

(** The kernel of [tests/parallel_for_each.cpp], [view(i) += 1]; the state is
    the view, lost when an access is out of bounds. *)
Definition increment_kernel (e : DiscreteElement) (view : option (ChunkSpan Z))
  : option (ChunkSpan Z) :=
  s ← view; v ← span_at s e; span_set s e (v + 1).

Section Cosine.

Context {Real : Type} `{RealOps Real}.

(** [Kokkos::cos], [ddc::detail::ipow] and [Kokkos::numbers::pi] are not part
    of [cosine_evaluator.hpp], nor is [ddc::coordinate], which reads the
    registry: they are parameters. *)
Variable Rcos : Real -> Real.
Variable ipow : Real -> Z -> Real.
Variable pi : Real.
Variable coordinate : DiscreteElement -> Real.

(** [CosineEvaluator::Evaluator]: the two data members. *)
Record Evaluator : Type := mkEvaluator {
  m_c0 : Real;
  m_c1 : Real
}.

(** [s_2_pi = 2 * pi] and [s_pi_2 = pi / 2]. *)
Definition s_2_pi : Real := Rmul (R_of_Z 2) pi.

Definition s_pi_2 : Real := Rdiv pi (R_of_Z 2).

(** [explicit Evaluator(Domain domain) : m_c0(1.0), m_c1(0.0)]. *)
Definition Evaluator_of_domain (domain : DiscreteDomain) : Evaluator :=
  mkEvaluator (R_of_Z 1) (R_of_Z 0).

(** [eval(x, derivative)] is
    [ipow(s_2_pi * m_c0, derivative)
       * cos(s_pi_2 * derivative + s_2_pi * (m_c0 * x + m_c1))]. *)
Definition eval (ev : Evaluator) (x : Real) (derivative : Z) : Real :=
  Rmul (ipow (Rmul s_2_pi (m_c0 ev)) derivative)
       (Rcos (Radd (Rmul s_pi_2 (R_of_Z derivative))
                   (Rmul s_2_pi (Radd (Rmul (m_c0 ev) x) (m_c1 ev))))).

(** [deriv(chunk, derivative)]:
    [for (i : domain) chunk(i) = eval(coordinate(i), derivative);]. *)
Definition deriv_chunk (ev : Evaluator) (chunk : ChunkSpan Real) (derivative : Z)
  : option (ChunkSpan Real) :=
  foldl (fun acc i => c ← acc; span_set c i (eval ev (coordinate i) derivative))
        (Some chunk) (elements (span_domain chunk)).

(** [operator()(chunk)]: the same loop with [eval(coordinate(i), 0)]. *)
Definition eval_chunk (ev : Evaluator) (chunk : ChunkSpan Real)
  : option (ChunkSpan Real) :=
  foldl (fun acc i => c ← acc; span_set c i (eval ev (coordinate i) 0))
        (Some chunk) (elements (span_domain chunk)).

End Cosine.

(** A stand-in for [Kokkos::cos], on which the property does not depend, an
    integer power by repeated product, and the coordinate of the uniform
    sampling of origin 0 and step 1/4. *)
Definition test_cos (x : float) : float := PrimFloat.sub 1%float (PrimFloat.mul x x).

Definition test_ipow (x : float) (n : Z) : float :=
  Z.iter n (PrimFloat.mul x) 1%float.

Definition test_coordinate (e : DiscreteElement) : float :=
  PrimFloat.mul (float_of_Z (default 0 (uid "X" e))) 0.25%float.

End Kernels.

(* ===================================================================== *)
(** * Properties of the machine arithmetic *)
(* ===================================================================== *)

Module ArithFacts.
Import Arith.

Lemma assert_Some (c : bool) : assert c = Some tt <-> c = true.
Proof. destruct c; simpl; split; congruence. Qed.

Lemma assert_None (c : bool) : assert c = None <-> c = false.
Proof. destruct c; simpl; split; congruence. Qed.

Lemma wrap_size_t_small (z : Z) :
  0 <= z < size_t_modulus -> wrap_size_t z = z.
Proof. intros H. unfold wrap_size_t. apply Z.mod_small. exact H. Qed.

Lemma static_cast_int_small (z : Z) :
  0 <= z <= int_max -> static_cast_int z = z.
Proof.
  intros H. unfold static_cast_int, int_modulus, int_max in *.
  rewrite Z.mod_small by lia.
  destruct (Z.leb_spec z (2 ^ 31 - 1)); lia.
Qed.

Lemma int_sub_small (a b : Z) :
  0 <= a <= int_max -> 0 <= b <= int_max -> int_sub a b = a - b.
Proof.
  intros Ha Hb. unfold int_sub, static_cast_int, int_modulus, int_max in *.
  destruct (Z_lt_le_dec (a - b) 0) as [Hneg | Hpos].
  - replace ((a - b) mod 2 ^ 32) with (a - b + 2 ^ 32).
    + destruct (Z.leb_spec (a - b + 2 ^ 32) (2 ^ 31 - 1)); lia.
    + apply Z.mod_unique with (q := -1); lia.
  - rewrite Z.mod_small by lia.
    destruct (Z.leb_spec (a - b) (2 ^ 31 - 1)); lia.
Qed.

Lemma bind_assert {A : Type} (c : bool) (k : option A) (r : A) :
  (_ ← assert c; k) = Some r <-> c = true /\ k = Some r.
Proof. destruct c; simpl; split; intros; try tauto; try easy. Qed.

End ArithFacts.

(* ===================================================================== *)
(** * Properties of the periodic sampling *)
(* ===================================================================== *)

Module PeriodicProps.
Import Arith Domain1 Periodic ArithFacts.

Section Generic.

Context {Real : Type} `{RealOps Real}.

(** What a successful construction establishes. *)
Lemma Impl_new_Some (o s : Real) (P : Z) (impl : Impl Real) :
  Impl_new o s P = Some impl <->
  Rltb (R_of_Z 0) s = true /\ 0 < P /\ impl = mkImpl o s P.
Proof.
  unfold Impl_new. rewrite !bind_assert, Z.ltb_lt.
  intuition congruence.
Qed.

(** Away from the limits of [std::size_t] and [int], the integer offset is
    the mathematical one. *)
Lemma period_offset_exact (impl : Impl Real) (uid : Z) :
  0 < m_n_period impl <= 2 ^ 31 ->
  0 <= uid ->
  uid + m_n_period impl / 2 < 2 ^ 64 ->
  period_offset impl uid
  = (uid + m_n_period impl / 2) mod m_n_period impl - m_n_period impl / 2.
Proof.
  intros HP Huid Hfit. unfold period_offset.
  set (P := m_n_period impl) in *.
  assert (Hhalf : 0 <= P / 2 <= 2 ^ 30).
  { split; [apply Z.div_pos; lia | apply Z.div_le_upper_bound; lia]. }
  rewrite wrap_size_t_small by (unfold size_t_modulus; lia).
  pose proof (Z.mod_pos_bound (uid + P / 2) P ltac:(lia)) as Hmod.
  rewrite !static_cast_int_small by (unfold int_max; lia).
  apply int_sub_small; unfold int_max; lia.
Qed.

(** C1 (amended).  For a periodic sampling constructed with origin [o], step
    [s] and period count [P], at most [2^31], and for every index [uid >= 0]
    with [uid + P/2] representable in [std::size_t], [coordinate(uid)] is
    [o + (((uid + P/2) mod P) - P/2) * s], as the specification words it, and
    the multiplier of the step lies in the principal range
    [-(P/2) <= k < P - P/2] centred on the origin. *)
Theorem coordinate_formula (o s : Real) (P : Z) (impl : Impl Real) (uid : Z) :
  Impl_new o s P = Some impl ->
  P <= 2 ^ 31 ->
  0 <= uid ->
  uid + P / 2 < 2 ^ 64 ->
  coordinate impl uid = Radd o (Rmul (R_of_Z ((uid + P / 2) mod P - P / 2)) s)
  /\ coordinate impl uid = coordinate_spec impl uid
  /\ exists k : Z,
       - (P / 2) <= k < P - P / 2
       /\ coordinate impl uid = Radd o (Rmul (R_of_Z k) s).
Proof.
  intros Hnew HP Huid Hfit.
  apply Impl_new_Some in Hnew as (_ & Hpos & ->).
  assert (Hoff : period_offset (mkImpl o s P) uid = (uid + P / 2) mod P - P / 2).
  { apply period_offset_exact; simpl; lia. }
  unfold coordinate, coordinate_spec. rewrite Hoff. simpl.
  repeat split.
  exists ((uid + P / 2) mod P - P / 2). split; [| reflexivity].
  pose proof (Z.mod_pos_bound (uid + P / 2) P Hpos). lia.
Qed.

(** C2 (amended).  For a periodic sampling with period count [P], every
    index [i >= 0] and every [k >= 0] such that [i + k*P + P/2] is
    representable in [std::size_t], the coordinates of [i + k*P] and of [i]
    are the same value. *)
Theorem coordinate_periodic (o s : Real) (P : Z) (impl : Impl Real) (i k : Z) :
  Impl_new o s P = Some impl ->
  0 <= i ->
  0 <= k ->
  i + k * P + P / 2 < 2 ^ 64 ->
  coordinate impl (i + k * P) = coordinate impl i.
Proof.
  intros Hnew Hi Hk Hfit.
  apply Impl_new_Some in Hnew as (_ & Hpos & ->).
  assert (Hhalf : 0 <= P / 2) by (apply Z.div_pos; lia).
  unfold coordinate, period_offset. simpl.
  rewrite !wrap_size_t_small by (unfold size_t_modulus; nia).
  replace (i + k * P + P / 2) with (i + P / 2 + k * P) by lia.
  rewrite Z.mod_add by lia. reflexivity.
Qed.

(** C9 (amended).  The constructor rejects every step that is not positive
    and the period count zero, so a constructed instance has [step > 0] and
    [n_period >= 1]; [init] and [init_ghosted] reject in addition every
    period count below two, so a sampling they return has [step > 0] and
    [n_period >= 2]. *)
Theorem construction_invariant :
  (forall (o s : Real) (P : Z),
      Rltb (R_of_Z 0) s = false \/ P <= 0 -> Impl_new o s P = None)
  /\ (forall (o s : Real) (P : Z) (impl : Impl Real),
      Impl_new o s P = Some impl ->
      Rltb (R_of_Z 0) (step impl) = true /\ 1 <= n_period impl)
  /\ (forall (a b : Real) (n P : Z), P < 2 -> init a b n P = None)
  /\ (forall (a b : Real) (n P : Z) (impl : Impl Real) (d : DiscreteDomain),
      init a b n P = Some (impl, d) ->
      Rltb (R_of_Z 0) (step impl) = true /\ 2 <= n_period impl)
  /\ (forall (a b : Real) (n P g1 g2 : Z), P < 2 -> init_ghosted a b n P g1 g2 = None)
  /\ (forall (a b : Real) (n P g1 g2 : Z) (impl : Impl Real)
             (main ghosted pre post : DiscreteDomain),
      init_ghosted a b n P g1 g2 = Some (impl, main, ghosted, pre, post) ->
      Rltb (R_of_Z 0) (step impl) = true /\ 2 <= n_period impl).
Proof.
  repeat apply conj.
  - intros o s P [Hs | HP]; unfold Impl_new.
    + rewrite Hs. reflexivity.
    + destruct (Rltb (R_of_Z 0) s); [| reflexivity]. simpl.
      destruct (Z.ltb_spec 0 P); [lia | reflexivity].
  - intros o s P impl Hnew.
    apply Impl_new_Some in Hnew as (Hs & HP & ->). simpl. split; [exact Hs | lia].
  - intros a b n P HP. unfold init.
    destruct (Rltb a b); [| reflexivity]. simpl.
    destruct (1 <? n); [| reflexivity]. simpl.
    destruct (Z.ltb_spec 1 P); [lia | reflexivity].
  - intros a b n P impl d Hinit. unfold init in Hinit.
    apply bind_assert in Hinit as (_ & Hinit).
    apply bind_assert in Hinit as (_ & Hinit).
    apply bind_assert in Hinit as (HP & Hinit).
    apply Z.ltb_lt in HP.
    destruct (Impl_new _ _ P) as [disc |] eqn:Hnew; [| discriminate].
    simpl in Hinit. destruct (make _ n); [| discriminate].
    simpl in Hinit. injection Hinit as <- _.
    apply Impl_new_Some in Hnew as (Hs & _ & ->). simpl. split; [exact Hs | lia].
  - intros a b n P g1 g2 HP. unfold init_ghosted.
    destruct (Rltb a b); [| reflexivity]. simpl.
    destruct (1 <? n); [| reflexivity]. simpl.
    destruct (Z.ltb_spec 1 P); [lia | reflexivity].
  - intros a b n P g1 g2 impl main ghosted pre post Hinit. unfold init_ghosted in Hinit.
    apply bind_assert in Hinit as (_ & Hinit).
    apply bind_assert in Hinit as (_ & Hinit).
    apply bind_assert in Hinit as (HP & Hinit).
    apply Z.ltb_lt in HP.
    destruct (Impl_new _ _ P) as [disc |] eqn:Hnew; [| discriminate].
    simpl in Hinit.
    destruct (make _ _) as [gd |]; [| discriminate]. simpl in Hinit.
    destruct (take_first _ _); [| discriminate]. simpl in Hinit.
    destruct (remove _ _ _); [| discriminate]. simpl in Hinit.
    destruct (take_last _ _); [| discriminate]. simpl in Hinit.
    injection Hinit as <- _ _ _ _.
    apply Impl_new_Some in Hnew as (Hs & _ & ->). simpl. split; [exact Hs | lia].
Qed.

(** Guards on integers that hold are rewritten to [true]. *)
Lemma leb_true (x y : Z) : x <= y -> (x <=? y) = true.
Proof. apply Z.leb_le. Qed.

Lemma ltb_true (x y : Z) : x < y -> (x <? y) = true.
Proof. apply Z.ltb_lt. Qed.

(** The domains [init_ghosted] returns, whenever it returns. *)
Lemma init_ghosted_Some (a b : Real) (n P g1 g2 : Z) (impl : Impl Real)
    (main ghosted pre post : DiscreteDomain) :
  init_ghosted a b n P g1 g2 = Some (impl, main, ghosted, pre, post) ->
  (1 < n /\ 0 <= g1 /\ 0 <= g2)
  /\ ghosted = mkDomain 0 (n + g1 + g2)
  /\ pre = mkDomain 0 g1
  /\ main = mkDomain g1 n
  /\ post = mkDomain (n + g1) g2.
Proof.
  unfold init_ghosted. intros Hinit.
  apply bind_assert in Hinit as (_ & Hinit).
  apply bind_assert in Hinit as (Hn & Hinit). apply Z.ltb_lt in Hn.
  apply bind_assert in Hinit as (_ & Hinit).
  destruct (Impl_new _ _ P) as [disc |]; [| discriminate]. simpl in Hinit.
  unfold make, take_first, remove, take_last, Impl_front in Hinit.
  destruct (0 <=? n + g1 + g2); [| discriminate]. simpl in Hinit.
  destruct (Z.leb_spec 0 g1); [| discriminate]. simpl in Hinit.
  destruct (g1 <=? n + g1 + g2); [| discriminate]. simpl in Hinit.
  destruct (0 <=? n + g1 + g2 - g1 - g2); [| discriminate]. simpl in Hinit.
  destruct (Z.leb_spec 0 g2); [| discriminate]. simpl in Hinit.
  destruct (g2 <=? n + g1 + g2); [| discriminate]. simpl in Hinit.
  injection Hinit as _ <- <- <- <-.
  repeat split; try lia; f_equal; lia.
Qed.

(** C7 (amended).  For [a < b], [n >= 2], [n_period >= 2], ghost counts
    [g_pre >= 0] and [g_post >= 0], and provided the computed step
    [(b - a)/(n - 1)] is positive (the constructor asserts it),
    [init_ghosted] returns a sampling whose step is [(b - a)/(n - 1)] and
    whose origin is [a - g_pre * step], the ghosted domain of front [0] and
    extent [n + g_pre + g_post], the main domain [remove(g_pre, g_post)] of
    it (front advanced by [g_pre], extent [n]), its leading [g_pre] slice as
    pre-ghost and its trailing [g_post] slice as post-ghost. *)
Theorem init_ghosted_result (a b : Real) (n P g_pre g_post : Z) :
  Rltb a b = true ->
  2 <= n ->
  2 <= P ->
  0 <= g_pre ->
  0 <= g_post ->
  Rltb (R_of_Z 0) (Rdiv (Rsub b a) (R_of_Z (n - 1))) = true ->
  exists (impl : Impl Real) (main ghosted pre post : DiscreteDomain),
    init_ghosted a b n P g_pre g_post = Some (impl, main, ghosted, pre, post)
    /\ step impl = Rdiv (Rsub b a) (R_of_Z (n - 1))
    /\ origin impl = Rsub a (Rmul (R_of_Z g_pre) (Rdiv (Rsub b a) (R_of_Z (n - 1))))
    /\ ghosted = mkDomain 0 (n + g_pre + g_post)
    /\ remove g_pre g_post ghosted = Some main
    /\ front main = front ghosted + g_pre
    /\ extents main = n
    /\ take_first g_pre ghosted = Some pre
    /\ take_last g_post ghosted = Some post.
Proof.
  intros Hab Hn HP Hpre Hpost Hstep.
  exists (mkImpl (Rsub a (Rmul (R_of_Z g_pre) (Rdiv (Rsub b a) (R_of_Z (n - 1)))))
                 (Rdiv (Rsub b a) (R_of_Z (n - 1))) P),
         (mkDomain (0 + g_pre) (n + g_pre + g_post - g_pre - g_post)),
         (mkDomain 0 (n + g_pre + g_post)),
         (mkDomain 0 g_pre),
         (mkDomain (0 + (n + g_pre + g_post) - g_post) g_post).
  unfold init_ghosted, Impl_new, make, take_first, remove, take_last, Impl_front.
  rewrite Hab, Hstep. simpl.
  rewrite !(ltb_true 1) by lia. simpl.
  rewrite (ltb_true 0 P) by lia. simpl.
  repeat (rewrite leb_true by lia; simpl).
  repeat split; lia.
Qed.

(** C8.  With the domains of [init_ghosted] for a main domain of extent [n]
    and ghost counts [g_pre] and [g_post], the pre-mirror is the domain of
    front [pre_ghost.front() + n] and extents [pre_ghost.extents()], the
    post-mirror the domain of front [post_ghost.front() - n] and extents
    [post_ghost.extents()].  For [g_pre <= n] the pre-mirror is the last
    [g_pre] indices of the main domain, and for [g_post <= n] the
    post-mirror is its first [g_post] indices.  With more ghosts than
    interior indices the mirror leaves the main domain: for [n < g_pre] the
    pre-mirror holds the last pre-ghost, for [n < g_post] the post-mirror
    holds the first post-ghost. *)
Theorem ghost_mirrors (a b : Real) (n P g_pre g_post : Z) (impl : Impl Real)
    (main ghosted pre post : DiscreteDomain) :
  init_ghosted a b n P g_pre g_post = Some (impl, main, ghosted, pre, post) ->
  extents main = n
  /\ pre_mirror main pre = Some (mkDomain (front pre + n) (extents pre))
  /\ post_mirror main post = Some (mkDomain (front post - n) (extents post))
  /\ (g_pre <= n ->
      pre_mirror main pre = take_last g_pre main
      /\ forall u : Z,
           contains (mkDomain (front pre + n) (extents pre)) u = true
           <-> contains main u = true /\ back main - g_pre < u)
  /\ (g_post <= n ->
      post_mirror main post = take_first g_post main
      /\ forall u : Z,
           contains (mkDomain (front post - n) (extents post)) u = true
           <-> contains main u = true /\ u < front main + g_post)
  /\ (n < g_pre ->
      contains (mkDomain (front pre + n) (extents pre)) (back pre) = true
      /\ contains main (back pre) = false)
  /\ (n < g_post ->
      contains (mkDomain (front post - n) (extents post)) (front post) = true
      /\ contains main (front post) = false).
Proof.
  intros Hinit.
  apply init_ghosted_Some in Hinit as ((Hn & Hg1 & Hg2) & -> & -> & -> & ->).
  unfold pre_mirror, post_mirror, elem_sub, elem_add, make, take_last, take_first.
  simpl.
  repeat (rewrite leb_true by lia; simpl).
  split; [reflexivity |].
  split; [reflexivity |].
  split; [f_equal; f_equal; lia |].
  split; [| split; [| split]].
  - intros Hle. repeat (rewrite leb_true by lia; simpl).
    split; [f_equal; f_equal; lia |].
    intros u. unfold contains, back. simpl.
    rewrite ?andb_true_iff, ?Z.leb_le, ?Z.ltb_lt. lia.
  - intros Hle. repeat (rewrite leb_true by lia; simpl).
    split; [f_equal; f_equal; lia |].
    intros u. unfold contains, back. simpl.
    rewrite ?andb_true_iff, ?Z.leb_le, ?Z.ltb_lt. lia.
  - intros Hlt. unfold contains, back. simpl. split.
    + rewrite andb_true_iff, Z.leb_le, Z.ltb_lt. lia.
    + rewrite andb_false_iff, Z.leb_gt, Z.ltb_ge. lia.
  - intros Hlt. unfold contains, back. simpl. split.
    + rewrite andb_true_iff, Z.leb_le, Z.ltb_lt. lia.
    + rewrite andb_false_iff, Z.leb_gt, Z.ltb_ge. lia.
Qed.

End Generic.

(** ** The sampling in IEEE-754 double precision *)

(** Closed comparisons of integers, by evaluation. *)
Ltac by_eval := first [lia | vm_compute; reflexivity | vm_compute; discriminate].

(** Two doubles that [==] tells apart are different values. *)
Ltac float_neq :=
  match goal with
  | |- ?x <> ?y =>
      let H := fresh in
      let K := fresh in
      intro H;
      assert (K : PrimFloat.eqb x y = false) by (vm_compute; reflexivity);
      rewrite H in K; vm_compute in K; discriminate K
  end.

(** C1, counterexample.  The index [2^64 - 1] of the sampling of origin [0],
    step [1] and period [3]: the sum [uid + 1] wraps to [0] in
    [std::size_t], the code returns [0 + (0 - 1) * 1 = -1], the formula
    gives [0 + ((2^64 mod 3) - 1) * 1 = 0].  And the index [2^32] of the
    sampling of period [2^33]: both conversions to [int] give [0], the code
    returns [0], the formula gives [-2^32]. *)
Lemma coordinate_formula_overflow :
  (Impl_new 0%float 1%float 3 = Some sampling_3
   /\ 0 <= 2 ^ 64 - 1 < size_t_modulus
   /\ coordinate sampling_3 (2 ^ 64 - 1) = (-1)%float
   /\ coordinate_spec sampling_3 (2 ^ 64 - 1) = 0%float
   /\ coordinate sampling_3 (2 ^ 64 - 1) <> coordinate_spec sampling_3 (2 ^ 64 - 1))
  /\ (Impl_new 0%float 1%float (2 ^ 33) = Some sampling_wide
      /\ 0 <= 2 ^ 32 < size_t_modulus
      /\ coordinate sampling_wide (2 ^ 32) = 0%float
      /\ coordinate_spec sampling_wide (2 ^ 32) = (-4294967296)%float
      /\ coordinate sampling_wide (2 ^ 32) <> coordinate_spec sampling_wide (2 ^ 32)).
Proof.
  split.
  - split; [vm_compute; reflexivity |].
    split; [unfold size_t_modulus; lia |].
    split; [vm_compute; reflexivity |].
    split; [vm_compute; reflexivity |].
    float_neq.
  - split; [vm_compute; reflexivity |].
    split; [unfold size_t_modulus; lia |].
    split; [vm_compute; reflexivity |].
    split; [vm_compute; reflexivity |].
    float_neq.
Qed.

Lemma coordinate_formula_witness :
  coordinate sampling_3 7
  = Radd 0%float (Rmul (R_of_Z ((7 + 3 / 2) mod 3 - 3 / 2)) 1%float)
  /\ coordinate sampling_3 7 = coordinate_spec sampling_3 7
  /\ exists k : Z,
       - (3 / 2) <= k < 3 - 3 / 2
       /\ coordinate sampling_3 7 = Radd 0%float (Rmul (R_of_Z k) 1%float).
Proof.
  apply (coordinate_formula 0%float 1%float 3 sampling_3 7).
  - vm_compute; reflexivity.
  - by_eval.
  - by_eval.
  - by_eval.
Defined.

(** C2, counterexample.  In the same sampling, [i = 0] and
    [k = (2^64 - 1)/3]: the index [i + k*3 = 2^64 - 1] is representable, its
    coordinate is [-1], the coordinate of [0] is [0]. *)
Lemma coordinate_periodic_overflow :
  Impl_new 0%float 1%float 3 = Some sampling_3
  /\ 0 <= 6148914691236517205
  /\ 0 <= 0 + 6148914691236517205 * 3 < size_t_modulus
  /\ coordinate sampling_3 (0 + 6148914691236517205 * 3) = (-1)%float
  /\ coordinate sampling_3 0 = 0%float
  /\ coordinate sampling_3 (0 + 6148914691236517205 * 3) <> coordinate sampling_3 0.
Proof.
  split; [vm_compute; reflexivity |].
  split; [lia |].
  split; [unfold size_t_modulus; lia |].
  split; [vm_compute; reflexivity |].
  split; [vm_compute; reflexivity |].
  float_neq.
Qed.

Lemma coordinate_periodic_witness :
  coordinate sampling_3 (1 + 4 * 3) = coordinate sampling_3 1.
Proof.
  apply (coordinate_periodic 0%float 1%float 3 sampling_3 1 4).
  - vm_compute; reflexivity.
  - by_eval.
  - by_eval.
  - by_eval.
Defined.

(** C9, counterexample.  The constructor accepts the period count [1]. *)
Lemma constructor_accepts_period_one :
  exists impl : Impl float,
    Impl_new 0%float 1%float 1 = Some impl /\ n_period impl < 2.
Proof.
  exists (mkImpl 0%float 1%float 1). split; [vm_compute; reflexivity | simpl; lia].
Qed.

Lemma construction_invariant_witness :
  Rltb (R_of_Z 0) (step sampling_3) = true /\ 1 <= n_period sampling_3.
Proof.
  apply (proj1 (proj2 (@construction_invariant float binary64))
               0%float 1%float 3 sampling_3).
  vm_compute; reflexivity.
Defined.

(** C7, counterexample.  [a = 0], [b = 2^-1074] (the least positive double)
    and [n = 3]: [a < b] holds, the step [(b - a)/2] rounds to zero, and the
    constructor's [assert(step > 0)] stops the program. *)
Lemma init_ghosted_step_underflow :
  Rltb 0%float 0x1p-1074%float = true
  /\ Rdiv (Rsub 0x1p-1074%float 0%float) (R_of_Z (3 - 1)) = 0%float
  /\ init_ghosted 0%float 0x1p-1074%float 3 2 0 0 = None.
Proof. repeat split; vm_compute; reflexivity. Qed.

Lemma init_ghosted_result_witness :
  exists (impl : Impl float) (main ghosted pre post : DiscreteDomain),
    init_ghosted 0%float 1%float 10 10 1 1 = Some (impl, main, ghosted, pre, post)
    /\ step impl = Rdiv (Rsub 1%float 0%float) (R_of_Z (10 - 1))
    /\ origin impl
       = Rsub 0%float (Rmul (R_of_Z 1) (Rdiv (Rsub 1%float 0%float) (R_of_Z (10 - 1))))
    /\ ghosted = mkDomain 0 (10 + 1 + 1)
    /\ remove 1 1 ghosted = Some main
    /\ front main = front ghosted + 1
    /\ extents main = 10
    /\ take_first 1 ghosted = Some pre
    /\ take_last 1 ghosted = Some post.
Proof.
  apply (init_ghosted_result 0%float 1%float 10 10 1 1).
  - vm_compute; reflexivity.
  - by_eval.
  - by_eval.
  - by_eval.
  - by_eval.
  - vm_compute; reflexivity.
Defined.

Lemma ghost_mirrors_witness :
  extents (mkDomain 1 10) = 10
  /\ pre_mirror (mkDomain 1 10) (mkDomain 0 1) = Some (mkDomain (0 + 10) 1)
  /\ post_mirror (mkDomain 1 10) (mkDomain 11 1) = Some (mkDomain (11 - 10) 1)
  /\ (1 <= 10 ->
      pre_mirror (mkDomain 1 10) (mkDomain 0 1) = take_last 1 (mkDomain 1 10)
      /\ forall u : Z,
           contains (mkDomain (0 + 10) 1) u = true
           <-> contains (mkDomain 1 10) u = true /\ back (mkDomain 1 10) - 1 < u)
  /\ (1 <= 10 ->
      post_mirror (mkDomain 1 10) (mkDomain 11 1) = take_first 1 (mkDomain 1 10)
      /\ forall u : Z,
           contains (mkDomain (11 - 10) 1) u = true
           <-> contains (mkDomain 1 10) u = true /\ u < front (mkDomain 1 10) + 1)
  /\ (10 < 1 ->
      contains (mkDomain (0 + 10) 1) (back (mkDomain 0 1)) = true
      /\ contains (mkDomain 1 10) (back (mkDomain 0 1)) = false)
  /\ (10 < 1 ->
      contains (mkDomain (11 - 10) 1) (front (mkDomain 11 1)) = true
      /\ contains (mkDomain 1 10) (front (mkDomain 11 1)) = false).
Proof.
  apply (ghost_mirrors 0%float 1%float 10 10 1 1 sampling_S4
                       (mkDomain 1 10) (mkDomain 0 12) (mkDomain 0 1) (mkDomain 11 1)).
  vm_compute; reflexivity.
Defined.

(** C8, counterexample.  A main domain of [n = 2] indices with three ghosts
    before it: [init_ghosted] returns the main domain [{3, 4}] and the
    pre-ghost [{0, 1, 2}]; the pre-mirror, of front [0 + 2] and extent [3],
    is [{2, 3, 4}]: it holds the ghost [2], which is no interior index, and
    has more indices than the main domain. *)
Lemma ghost_mirrors_wide_ghost :
  exists (impl : Impl float) (ghosted post : DiscreteDomain),
    init_ghosted 0%float 1%float 2 2 3 0
    = Some (impl, mkDomain 3 2, ghosted, mkDomain 0 3, post)
    /\ pre_mirror (mkDomain 3 2) (mkDomain 0 3) = Some (mkDomain 2 3)
    /\ contains (mkDomain 2 3) 2 = true
    /\ contains (mkDomain 0 3) 2 = true
    /\ contains (mkDomain 3 2) 2 = false
    /\ size (mkDomain 3 2) < size (mkDomain 2 3).
Proof.
  exists (mkImpl (-3)%float 1%float 2), (mkDomain 0 5), (mkDomain 5 0).
  repeat split; vm_compute; reflexivity.
Qed.

End PeriodicProps.

(* ===================================================================== *)
(** * Properties of domain iteration *)
(* ===================================================================== *)

Module DomainProps.
Import Arith Domain.

(** ** Tagged lookup *)

Lemma uid_head (t : Tag) (u : Z) (e : DiscreteElement) :
  uid t ((t, u) :: e) = Some u.
Proof. simpl. by rewrite decide_True. Qed.

Lemma uid_cons_ne (t t' : Tag) (u : Z) (e : DiscreteElement) :
  t ≠ t' → uid t ((t', u) :: e) = uid t e.
Proof. intros Hne. simpl. by rewrite decide_False. Qed.

(** ** The nested loops *)

Lemma length_bind_const {A B : Type} (f : A → list B) (l : list A) (n : nat) :
  (∀ x, length (f x) = n) → length (l ≫= f) = (length l * n)%nat.
Proof.
  intros Hf. induction l as [| x l IH]; [done |].
  rewrite bind_cons, length_app, Hf, IH. simpl. lia.
Qed.

Lemma length_iterate (axes : list (Tag * list Z)) :
  Z.of_nat (length (iterate axes))
  = product_of ((λ a, Z.of_nat (length a.2)) <$> axes).
Proof.
  induction axes as [| [t us] rest IH]; [done |].
  simpl. rewrite (length_bind_const _ _ (length (iterate rest))).
  - rewrite Nat2Z.inj_mul, IH. done.
  - intros u. by rewrite length_fmap.
Qed.

Lemma elem_of_iterate (axes : list (Tag * list Z)) (e : DiscreteElement) :
  e ∈ iterate axes ↔ Forall2 (λ a p, p.1 = a.1 ∧ p.2 ∈ a.2) axes e.
Proof.
  revert e. induction axes as [| [t us] rest IH]; intros e; simpl.
  - rewrite list_elem_of_singleton. split.
    + intros ->. constructor.
    + intros Hall. by apply Forall2_nil_inv_l in Hall.
  - rewrite list_elem_of_bind. split.
    + intros (u & He & Hu). apply list_elem_of_fmap in He as (e' & -> & He').
      constructor; [done |]. by apply IH.
    + intros Hall. apply Forall2_cons_inv_l in Hall as ([t' u] & e' & [Ht Hu] & Hrest & ->).
      simpl in *. subst t'. exists u. split; [| done].
      apply list_elem_of_fmap. exists e'. split; [done |]. by apply IH.
Qed.

Lemma NoDup_iterate (axes : list (Tag * list Z)) :
  Forall (λ a, NoDup a.2) axes → NoDup (iterate axes).
Proof.
  induction 1 as [| [t us] rest Hus _ IH]; simpl.
  - apply NoDup_singleton.
  - apply NoDup_bind; [| | done].
    + intros u1 u2 e _ _ H1 H2.
      apply list_elem_of_fmap in H1 as (e1 & -> & _).
      apply list_elem_of_fmap in H2 as (e2 & Heq & _). congruence.
    + intros u _. apply NoDup_fmap_2; [| done]. intros e1 e2 Heq. congruence.
Qed.

(** Positional membership, read through the tags. *)
Lemma tagged_lookup (axes : list (Tag * list Z)) (e : DiscreteElement) :
  NoDup (fst <$> axes) →
  Forall2 (λ a p, p.1 = a.1 ∧ p.2 ∈ a.2) axes e
  ↔ tagged_as (fst <$> axes) e
    ∧ Forall (λ a, ∃ u, uid a.1 e = Some u ∧ u ∈ a.2) axes.
Proof.
  unfold tagged_as. intros Hnd. revert e.
  induction axes as [| [t us] rest IH]; intros e.
  - split.
    + intros Hall. apply Forall2_nil_inv_l in Hall as ->. by split.
    + intros [Htags _]. apply fmap_nil_inv in Htags as ->. constructor.
  - rewrite fmap_cons in Hnd. apply NoDup_cons in Hnd as [Hfresh Hnd]. split.
    + intros Hall. apply Forall2_cons_inv_l in Hall as ([t' u] & e' & [Ht Hu] & Hrest & ->).
      simpl in Ht, Hu. subst t'.
      apply IH in Hrest as [Htags Hrest]; [| done].
      split; [rewrite !fmap_cons; by rewrite Htags |].
      constructor.
      * exists u. by rewrite uid_head.
      * apply Forall_forall. intros a Ha.
        rewrite Forall_forall in Hrest. destruct (Hrest a Ha) as (v & Hv & Hin).
        exists v. split; [| done]. rewrite uid_cons_ne; [done |].
        intros Heq. apply Hfresh. apply list_elem_of_fmap. by exists a.
    + intros [Htags Hall]. destruct e as [| [t' u] e']; [done |].
      rewrite !fmap_cons in Htags. injection Htags as -> Htags.
      apply Forall_cons in Hall as [(v & Hv & Hin) Hall].
      rewrite uid_head in Hv. injection Hv as <-.
      constructor; [done |]. apply IH; [done |]. split; [done |].
      apply Forall_forall. intros a Ha.
      rewrite Forall_forall in Hall. destruct (Hall a Ha) as (w & Hw & Hin').
      exists w. split; [| done]. rewrite uid_cons_ne in Hw; [done |].
      intros Heq. apply Hfresh. apply list_elem_of_fmap. by exists a.
Qed.

(** ** Membership, per dimension *)

Lemma elem_of_range_points (r : Domain1.DiscreteDomain) (u : Z) :
  u ∈ range_points r ↔ Domain1.contains r u = true.
Proof.
  unfold range_points, Domain1.contains.
  rewrite elem_of_seqZ, andb_true_iff, Z.leb_le, Z.ltb_lt. done.
Qed.

Lemma ceil_div_bound (e t k : Z) :
  0 < t → (k < ceil_div e t ↔ k * t < e).
Proof.
  intros Ht. unfold ceil_div. split.
  - intros Hk.
    assert (t * ((e + t - 1) / t) <= e + t - 1) by (apply Z.mul_div_le; lia).
    nia.
  - intros Hk. apply Z.lt_le_pred. unfold Z.pred.
    assert (k + 1 <= (e + t - 1) / t); [| lia].
    apply Z.div_le_lower_bound; lia.
Qed.

Lemma ceil_div_nonneg (e t : Z) : 0 <= e → 0 < t → 0 <= ceil_div e t.
Proof. intros He Ht. unfold ceil_div. apply Z.div_pos; lia. Qed.

Lemma elem_of_axis_points (a : StridedAxis) (u : Z) :
  0 < axis_stride a →
  u ∈ axis_points a ↔ axis_contains a u = true.
Proof.
  intros Hs. unfold axis_points, axis_contains, axis_size, Domain1.contains.
  rewrite list_elem_of_fmap, !andb_true_iff, Z.leb_le, Z.ltb_lt, Z.eqb_eq.
  set (f := Domain1.front (axis_range a)). set (n := Domain1.extents (axis_range a)).
  set (s := axis_stride a) in *.
  split.
  - intros (k & -> & Hk). apply elem_of_seqZ in Hk as [Hk0 Hk].
    apply ceil_div_bound in Hk; [| done].
    replace (f + k * s - f) with (k * s) by lia.
    rewrite Z.mod_mul by lia. lia.
  - intros [[Hlo Hhi] Hmod].
    apply Z.div_exact in Hmod; [| lia].
    exists ((u - f) / s). split; [lia |].
    apply elem_of_seqZ. split.
    + apply Z.div_pos; lia.
    + apply ceil_div_bound; [done | lia].
Qed.

Lemma NoDup_axis_points (a : StridedAxis) :
  0 < axis_stride a → NoDup (axis_points a).
Proof.
  intros Hs. unfold axis_points. apply NoDup_fmap_2; [| apply NoDup_seqZ].
  intros k1 k2 Heq. nia.
Qed.

(** ** The elements of a domain *)

Lemma contains_Forall (d : DiscreteDomain) (e : DiscreteElement) :
  contains d e = true
  ↔ Forall (λ a, ∃ u, uid a.1 e = Some u ∧ Domain1.contains a.2 u = true) d.
Proof.
  unfold contains. rewrite forallb_forall, Forall_forall.
  split; intros Hall a Ha.
  - apply list_elem_of_In in Ha. specialize (Hall a Ha).
    destruct (uid a.1 e) as [u |]; [by exists u | done].
  - apply list_elem_of_In in Ha. destruct (Hall a Ha) as (u & -> & Hu). done.
Qed.

Lemma strided_contains_Forall (d : StridedDiscreteDomain) (e : DiscreteElement) :
  strided_contains d e = true
  ↔ Forall (λ a, ∃ u, uid (axis_tag a) e = Some u ∧ axis_contains a u = true) d.
Proof.
  unfold strided_contains. rewrite forallb_forall, Forall_forall.
  split; intros Hall a Ha.
  - apply list_elem_of_In in Ha. specialize (Hall a Ha).
    destruct (uid (axis_tag a) e) as [u |]; [by exists u | done].
  - apply list_elem_of_In in Ha. destruct (Hall a Ha) as (u & -> & Hu). done.
Qed.

Lemma elem_of_elements (d : DiscreteDomain) (e : DiscreteElement) :
  NoDup (tags d) → e ∈ elements d ↔ element_of d e.
Proof.
  intros Hnd. unfold elements, element_of.
  assert (Htags : ((λ a : Tag * Domain1.DiscreteDomain, (a.1, range_points a.2)) <$> d).*1
                  = tags d).
  { unfold tags. rewrite <- list_fmap_compose. done. }
  rewrite elem_of_iterate, tagged_lookup by (by rewrite Htags).
  rewrite Htags, contains_Forall, Forall_fmap.
  apply and_iff_compat_l, Forall_iff. intros [t r]. simpl.
  by setoid_rewrite elem_of_range_points.
Qed.

Lemma elem_of_strided_elements (d : StridedDiscreteDomain) (e : DiscreteElement) :
  strided_valid d → e ∈ strided_elements d ↔ strided_element_of d e.
Proof.
  intros [Hnd Hpos]. unfold strided_elements, strided_element_of.
  assert (Htags : ((λ a, (axis_tag a, axis_points a)) <$> d).*1 = strided_tags d).
  { unfold strided_tags. rewrite <- list_fmap_compose. done. }
  rewrite elem_of_iterate, tagged_lookup by (by rewrite Htags).
  rewrite Htags, strided_contains_Forall, Forall_fmap.
  apply and_iff_compat_l. rewrite !Forall_forall.
  split; intros Hall a Ha; destruct (Hall a Ha) as (u & Hu & Hin);
    exists u; (split; [done |]);
    rewrite Forall_forall in Hpos; destruct (Hpos a Ha) as [_ Hs];
    simpl in *; by apply elem_of_axis_points.
Qed.

Lemma NoDup_elements (d : DiscreteDomain) : NoDup (elements d).
Proof.
  apply NoDup_iterate, Forall_fmap, Forall_forall. intros a _. apply NoDup_seqZ.
Qed.

Lemma NoDup_strided_elements (d : StridedDiscreteDomain) :
  strided_valid d → NoDup (strided_elements d).
Proof.
  intros [_ Hpos]. apply NoDup_iterate, Forall_fmap.
  eapply Forall_impl; [exact Hpos |]. intros a [_ Hs]. by apply NoDup_axis_points.
Qed.

Lemma length_elements (d : DiscreteDomain) :
  valid d → Z.of_nat (length (elements d)) = size d.
Proof.
  intros [_ Hext]. unfold elements, size.
  rewrite length_iterate, <- list_fmap_compose. f_equal.
  apply Forall_fmap_ext. eapply Forall_impl; [exact Hext |].
  intros [t r] Hr. simpl in *. unfold range_points. rewrite length_seqZ. lia.
Qed.

Lemma length_strided_elements (d : StridedDiscreteDomain) :
  strided_valid d → Z.of_nat (length (strided_elements d)) = strided_size d.
Proof.
  intros [_ Hext]. unfold strided_elements, strided_size.
  rewrite length_iterate, <- list_fmap_compose. f_equal.
  apply Forall_fmap_ext. eapply Forall_impl; [exact Hext |].
  intros a [He Hs]. simpl. unfold axis_points.
  rewrite length_fmap, length_seqZ.
  pose proof (ceil_div_nonneg _ _ He Hs). unfold axis_size. lia.
Qed.

(** ** Serial and parallel runs *)

Lemma foldl_record_call (els log : list DiscreteElement) :
  foldl (λ s e, record_call e s) log els = log ++ els.
Proof.
  revert log. induction els as [| e els IH]; intros log; simpl.
  - by rewrite app_nil_r.
  - rewrite IH. unfold record_call. by rewrite <- app_assoc.
Qed.

(** The serial loop invokes the kernel on the elements in iteration order. *)
Lemma for_each_record_call (d : DiscreteDomain) :
  for_each d record_call [] = elements d.
Proof. unfold for_each, for_each_in. apply foldl_record_call. Qed.

(** A contiguous domain iterates as the strided domain of stride one. *)
Lemma elements_to_strided (d : DiscreteDomain) :
  strided_elements (to_strided d) = elements d.
Proof.
  unfold strided_elements, elements, to_strided. rewrite <- list_fmap_compose.
  f_equal. apply list_fmap_ext. intros _ [t r] _. simpl. f_equal.
  unfold axis_points, axis_size, ceil_div, range_points. simpl.
  replace (Domain1.extents r + 1 - 1) with (Domain1.extents r) by lia.
  rewrite Z.div_1_r, <- (Z.add_0_r (Domain1.front r)) at 1.
  rewrite <- fmap_add_seqZ. apply list_fmap_ext. intros _ k _. lia.
Qed.

(** A schedule within the range runs the kernel on the elements it names,
    in the order of the schedule. *)
Lemma parallel_for_each_in_run {State : Type} (sched : list nat)
    (els : list DiscreteElement) (kernel : DiscreteElement → State → State) (st : State) :
  Forall (λ i, (i < length els)%nat) sched →
  parallel_for_each_in sched els kernel st
  = Some (foldl (λ s e, kernel e s) st (omap (λ i, els !! i) sched)).
Proof.
  unfold parallel_for_each_in. intros Hin. revert st.
  induction Hin as [| i sched Hi _ IH]; intros st; [done |].
  apply lookup_lt_is_Some_2 in Hi as [e He].
  simpl. rewrite He. simpl. apply IH.
Qed.

Lemma omap_lookup_seq_from {A : Type} (pre l : list A) :
  omap (λ i, (pre ++ l) !! i) (seq (length pre) (length l)) = l.
Proof.
  revert pre. induction l as [| x l IH]; intros pre; [done |].
  simpl. rewrite list_lookup_middle by done. f_equal.
  specialize (IH (pre ++ [x])).
  rewrite length_app, Nat.add_1_r, <- app_assoc in IH. exact IH.
Qed.

Lemma omap_lookup_seq {A : Type} (l : list A) :
  omap (λ i, l !! i) (seq 0 (length l)) = l.
Proof. apply (omap_lookup_seq_from [] l). Qed.

(** Under a schedule of the whole range, the invocations are a permutation of
    the elements in iteration order. *)
Lemma parallel_for_each_in_calls (sched : list nat) (els : list DiscreteElement) :
  sched ≡ₚ seq 0 (length els) →
  ∃ calls : list DiscreteElement,
    calls ≡ₚ els
    ∧ ∀ (State : Type) (kernel : DiscreteElement → State → State) (st : State),
        parallel_for_each_in sched els kernel st
        = Some (foldl (λ s e, kernel e s) st calls).
Proof.
  intros Hsched. exists (omap (λ i, els !! i) sched). split.
  - rewrite Hsched. by rewrite omap_lookup_seq.
  - intros State kernel st. apply parallel_for_each_in_run.
    apply Forall_forall. intros i Hi. rewrite Hsched in Hi.
    apply elem_of_seq in Hi. lia.
Qed.

Lemma once_per_element_Permutation (member : DiscreteElement → Prop) (n : Z)
    (calls els : list DiscreteElement) :
  calls ≡ₚ els → once_per_element member n els → once_per_element member n calls.
Proof.
  intros Hperm (Hnd & Hmem & Hlen). repeat split.
  - by rewrite Hperm.
  - rewrite Hperm. apply Hmem.
  - rewrite Hperm. apply Hmem.
  - by rewrite Hperm.
Qed.

Lemma elements_once (d : DiscreteDomain) :
  valid d → once_per_element (element_of d) (size d) (elements d).
Proof.
  intros Hd. split; [apply NoDup_elements |]. split.
  - intros e. apply elem_of_elements, Hd.
  - by apply length_elements.
Qed.

Lemma strided_elements_once (d : StridedDiscreteDomain) :
  strided_valid d →
  once_per_element (strided_element_of d) (strided_size d) (strided_elements d).
Proof.
  intros Hd. split; [by apply NoDup_strided_elements |]. split.
  - intros e. by apply elem_of_strided_elements.
  - by apply length_strided_elements.
Qed.

Lemma schedule_of_length (n : Z) (els : list DiscreteElement) (sched : list nat) :
  Z.of_nat (length els) = n → schedule_of n sched → sched ≡ₚ seq 0 (length els).
Proof. unfold schedule_of. intros <-. by rewrite Nat2Z.id. Qed.

(** C3.  For a discrete domain [d] and a strided discrete domain [sd]
    (distinct tags, non-negative extents, positive strides), the serial
    [for_each] and [parallel_for_each], under any schedule of the execution
    space, invoke the kernel exactly once per element of the domain: the
    invocations are pairwise distinct, they are the elements the domain
    contains, and there are [size()] of them, where the size of a strided
    domain is the product of [ceil(e_i / t_i)]; extents [(10, 12)] with
    strides [(3, 3)] give [4 * 4 = 16] elements. *)
Theorem for_each_once_per_element (d : DiscreteDomain) (sd : StridedDiscreteDomain)
    (sched ssched : list nat) :
  valid d →
  strided_valid sd →
  schedule_of (size d) sched →
  schedule_of (strided_size sd) ssched →
  (∃ calls, once_per_element (element_of d) (size d) calls
      ∧ ∀ State kernel st,
          @for_each State d kernel st = foldl (λ s e, kernel e s) st calls)
  ∧ (∃ calls, once_per_element (element_of d) (size d) calls
      ∧ ∀ State kernel st,
          @parallel_for_each State sched d kernel st
          = Some (foldl (λ s e, kernel e s) st calls))
  ∧ (∃ calls, once_per_element (strided_element_of sd) (strided_size sd) calls
      ∧ ∀ State kernel st,
          @strided_for_each State sd kernel st = foldl (λ s e, kernel e s) st calls)
  ∧ (∃ calls, once_per_element (strided_element_of sd) (strided_size sd) calls
      ∧ ∀ State kernel st,
          @strided_parallel_for_each State ssched sd kernel st
          = Some (foldl (λ s e, kernel e s) st calls))
  ∧ strided_size sd
    = product_of ((λ a, ceil_div (Domain1.extents (axis_range a)) (axis_stride a)) <$> sd)
  ∧ strided_size strided_test_domain = 4 * 4.
Proof.
  intros Hd Hsd Hsched Hssched.
  pose proof (elements_once d Hd) as Hel.
  pose proof (strided_elements_once sd Hsd) as Hsel.
  split; [| split; [| split; [| split; [| split]]]].
  - exists (elements d). split; [exact Hel | done].
  - destruct (parallel_for_each_in_calls sched (elements d)) as (calls & Hperm & Hrun).
    { eapply schedule_of_length; [| exact Hsched]. apply Hel. }
    exists calls. split; [| exact Hrun].
    by apply (once_per_element_Permutation _ _ _ _ Hperm).
  - exists (strided_elements sd). split; [exact Hsel | done].
  - destruct (parallel_for_each_in_calls ssched (strided_elements sd))
      as (calls & Hperm & Hrun).
    { eapply schedule_of_length; [| exact Hssched]. apply Hsel. }
    exists calls. split; [| exact Hrun].
    by apply (once_per_element_Permutation _ _ _ _ Hperm).
  - done.
  - done.
Qed.

(** The test's kernel, on the test's strided domain, under a schedule that
    runs the range backwards. *)
Lemma for_each_once_per_element_witness :
  (∃ calls, once_per_element (element_of [("DDimX", Domain1.mkDomain 0 10);
                                          ("DDimY", Domain1.mkDomain 0 12)]) 120 calls
      ∧ ∀ State kernel st,
          @for_each State [("DDimX", Domain1.mkDomain 0 10);
                           ("DDimY", Domain1.mkDomain 0 12)] kernel st
          = foldl (λ s e, kernel e s) st calls)
  ∧ (∃ calls, once_per_element (strided_element_of strided_test_domain) 16 calls
      ∧ ∀ State kernel st,
          @strided_parallel_for_each State (reverse (seq 0 16)) strided_test_domain kernel st
          = Some (foldl (λ s e, kernel e s) st calls)).
Proof.
  pose proof (for_each_once_per_element
                [("DDimX", Domain1.mkDomain 0 10); ("DDimY", Domain1.mkDomain 0 12)]
                strided_test_domain (seq 0 120) (reverse (seq 0 16))) as Hthm.
  destruct Hthm as (Hserial & _ & _ & Hpar & _).
  - split.
    + apply NoDup_cons. split; [by intros ?%list_elem_of_singleton |].
      apply NoDup_singleton.
    + repeat constructor; simpl; lia.
  - split.
    + apply NoDup_cons. split; [by intros ?%list_elem_of_singleton |].
      apply NoDup_singleton.
    + repeat constructor; simpl; lia.
  - unfold schedule_of. done.
  - unfold schedule_of. apply reverse_Permutation.
  - split; [exact Hserial | exact Hpar].
Defined.

End DomainProps.

(* ===================================================================== *)
(** * Properties of chunks *)
(* ===================================================================== *)

Module ChunkProps.
Import Arith Domain Chunks ArithFacts DomainProps.

(** ** Elements are read through their tags *)

Lemma uid_Some_elem (t : Tag) (u : Z) (e : DiscreteElement) :
  NoDup e.*1 → uid t e = Some u ↔ (t, u) ∈ e.
Proof.
  induction e as [| [t' u'] e IH]; intros Hnd.
  - simpl. split; [done | by intros ?%elem_of_nil].
  - rewrite fmap_cons in Hnd. apply NoDup_cons in Hnd as [Hfresh Hnd].
    rewrite elem_of_cons. destruct (decide (t = t')) as [-> | Hne].
    + rewrite uid_head. split.
      * intros [= ->]. by left.
      * intros [[= ->] | Hin]; [done |].
        exfalso. apply Hfresh. apply list_elem_of_fmap. by exists (t', u).
    + rewrite uid_cons_ne by done. rewrite IH by done. split.
      * by right.
      * intros [[= -> ->] | Hin]; [done | done].
Qed.

Lemma uid_Permutation (t : Tag) (e e' : DiscreteElement) :
  NoDup e.*1 → e ≡ₚ e' → uid t e = uid t e'.
Proof.
  intros Hnd Hperm. apply option_eq. intros u.
  rewrite !uid_Some_elem; [by rewrite Hperm | by rewrite <- Hperm | done].
Qed.

Lemma uid_select (ts : list Tag) (e : DiscreteElement) (t : Tag) :
  Forall (λ t, is_Some (uid t e)) ts →
  t ∈ ts → uid t (select ts e) = uid t e.
Proof.
  unfold select. induction 1 as [| t0 ts [u0 Hu0] _ IH]; intros Hin.
  - by apply elem_of_nil in Hin.
  - simpl. rewrite Hu0. simpl. destruct (decide (t = t0)) as [-> | Hne].
    + done.
    + apply IH. apply elem_of_cons in Hin as [? | ?]; done.
Qed.

Lemma select_tagged (ts : list Tag) (e : DiscreteElement) :
  Forall (λ t, is_Some (uid t e)) ts → tagged_as ts (select ts e).
Proof.
  unfold tagged_as, select. induction 1 as [| t0 ts [u0 Hu0] _ IH]; [done |].
  simpl. rewrite Hu0. simpl. f_equal. exact IH.
Qed.

(** ** Address arithmetic *)

Lemma linear_cons_Some (t : Tag) (r : Domain1.DiscreteDomain) (d : DiscreteDomain)
    (s : Z) (strides : list Z) (e : DiscreteElement) (off : Z) :
  linear ((t, r) :: d) (s :: strides) e = Some off
  ↔ ∃ u rest, uid t e = Some u ∧ Domain1.contains r u = true
              ∧ linear d strides e = Some rest
              ∧ off = (u - Domain1.front r) * s + rest.
Proof.
  simpl. destruct (uid t e) as [u |]; simpl;
    [| split; [done | by intros (? & ? & ? & _)]].
  destruct (Domain1.contains r u) eqn:Hc; simpl;
    [| split; [done | intros (? & ? & [= <-] & ? & _); congruence]].
  destruct (linear d strides e) as [rest |]; simpl.
  - split.
    + intros [= <-]. by exists u, rest.
    + by intros (? & ? & [= <-] & _ & [= <-] & ->).
  - split; [done | by intros (? & ? & _ & _ & ? & _)].
Qed.

Lemma linear_ext (d : DiscreteDomain) (strides : list Z) (e e' : DiscreteElement) :
  (∀ t, t ∈ tags d → uid t e = uid t e') →
  linear d strides e = linear d strides e'.
Proof.
  revert strides. induction d as [| [t r] d IH]; intros [| s strides] Hext; try done.
  simpl. rewrite (Hext t) by (unfold tags; rewrite fmap_cons; by left).
  rewrite (IH strides); [done |].
  intros t' Ht'. apply Hext. unfold tags in *. rewrite fmap_cons. by right.
Qed.

Lemma size_cons (t : Tag) (r : Domain1.DiscreteDomain) (d : DiscreteDomain) :
  size ((t, r) :: d) = Domain1.extents r * size d.
Proof. done. Qed.

Lemma size_nonneg (d : DiscreteDomain) :
  Forall (λ a, 0 <= Domain1.extents a.2) d → 0 <= size d.
Proof.
  induction 1 as [| [t r] d Hr _ IH]; [done |].
  rewrite size_cons. simpl in Hr. lia.
Qed.

Lemma contains_range (r : Domain1.DiscreteDomain) (u : Z) :
  Domain1.contains r u = true
  ↔ Domain1.front r <= u < Domain1.front r + Domain1.extents r.
Proof.
  unfold Domain1.contains. rewrite andb_true_iff, Z.leb_le, Z.ltb_lt. done.
Qed.

(** Row-major offsets stay inside the buffer. *)
Lemma linear_bound (d : DiscreteDomain) (e : DiscreteElement) (off : Z) :
  Forall (λ a, 0 <= Domain1.extents a.2) d →
  linear d (layout_right d) e = Some off → 0 <= off < size d.
Proof.
  intros Hext. revert off. induction Hext as [| [t r] d Hr _ IH]; intros off Hlin.
  - simpl in Hlin. injection Hlin as <-. done.
  - cbn [layout_right] in Hlin.
    apply linear_cons_Some in Hlin as (u & rest & _ & Hu & Hrest & ->).
    apply contains_range in Hu. specialize (IH rest Hrest).
    rewrite size_cons. nia.
Qed.

Lemma linear_is_Some (d : DiscreteDomain) (e : DiscreteElement) :
  contains d e = true → is_Some (linear d (layout_right d) e).
Proof.
  rewrite contains_Forall.
  induction 1 as [| [t r] d (u & Hu & Hin) _ [rest IH]]; [by eexists |].
  exists ((u - Domain1.front r) * size d + rest).
  cbn [layout_right]. apply linear_cons_Some. by exists u, rest.
Qed.

Lemma linear_contains (d : DiscreteDomain) (strides : list Z)
    (e : DiscreteElement) (off : Z) :
  linear d strides e = Some off → contains d e = true.
Proof.
  rewrite contains_Forall. revert strides off.
  induction d as [| [t r] d IH]; intros [| s strides] off Hlin; try done.
  apply linear_cons_Some in Hlin as (u & rest & Hu & Hin & Hrest & _).
  constructor; [by exists u | by eapply IH].
Qed.

(** Row-major offsets tell the elements of the domain apart. *)
Lemma linear_inj (d : DiscreteDomain) (e1 e2 : DiscreteElement) (off : Z) :
  Forall (λ a, 0 <= Domain1.extents a.2) d →
  linear d (layout_right d) e1 = Some off →
  linear d (layout_right d) e2 = Some off →
  ∀ t, t ∈ tags d → uid t e1 = uid t e2.
Proof.
  intros Hext. revert off.
  induction Hext as [| [t r] d Hr Hext IH]; intros off H1 H2 t' Ht'.
  - by apply elem_of_nil in Ht'.
  - cbn [layout_right] in H1, H2.
    apply linear_cons_Some in H1 as (u1 & rest1 & Hu1 & Hin1 & Hrest1 & ->).
    apply linear_cons_Some in H2 as (u2 & rest2 & Hu2 & Hin2 & Hrest2 & Heq).
    pose proof (linear_bound d e1 rest1 Hext Hrest1) as Hb1.
    pose proof (linear_bound d e2 rest2 Hext Hrest2) as Hb2.
    assert (Hu : u1 = u2).
    { destruct (Z.lt_trichotomy u1 u2) as [Hlt | [Hu | Hgt]]; [exfalso | done | exfalso].
      - assert (size d <= (u2 - u1) * size d) by nia. lia.
      - assert (size d <= (u1 - u2) * size d) by nia. lia. }
    subst u2. assert (rest1 = rest2) as -> by lia.
    unfold tags in Ht'. rewrite fmap_cons in Ht'. apply elem_of_cons in Ht' as [-> | Ht'].
    + simpl. by rewrite Hu1, Hu2.
    + by apply (IH rest2).
Qed.

(** ** Reading a span *)

Section Access.

Context {T : Type}.

Lemma span_index_ext (s : ChunkSpan T) (e e' : DiscreteElement) :
  (∀ t, t ∈ tags (span_domain s) → uid t e = uid t e') →
  span_index s e = span_index s e'.
Proof. intros Hext. unfold span_index. by rewrite (linear_ext _ _ e e'). Qed.

Lemma span_at_ext (s : ChunkSpan T) (e e' : DiscreteElement) :
  (∀ t, t ∈ tags (span_domain s) → uid t e = uid t e') →
  span_at s e = span_at s e'.
Proof. intros Hext. unfold span_at. by rewrite (span_index_ext _ e e'). Qed.

Lemma span_index_Some (s : ChunkSpan T) (e : DiscreteElement) (i : nat) :
  span_index s e = Some i
  ↔ ∃ off, linear (span_domain s) (span_strides s) e = Some off
           ∧ 0 <= span_offset s + off < Z.of_nat (length (span_data s))
           ∧ i = Z.to_nat (span_offset s + off).
Proof.
  unfold span_index.
  destruct (linear (span_domain s) (span_strides s) e) as [off |]; simpl;
    [| split; [done | by intros (? & ? & _)]].
  destruct (Z.leb_spec 0 (span_offset s + off));
    destruct (Z.ltb_spec (span_offset s + off) (Z.of_nat (length (span_data s))));
    simpl; split;
    try done; try (intros [= <-]; exists off; split; [done | split; [lia | done]]);
    intros (? & [= <-] & ? & ->); first [done | lia].
Qed.

(** Inside the domain, the row-major position of a chunk is inside its
    buffer. *)
Lemma chunk_index_is_Some (c : Chunk T) (e : DiscreteElement) :
  chunk_wf c → contains (chunk_domain c) e = true →
  ∃ off, linear (chunk_domain c) (layout_right (chunk_domain c)) e = Some off
         ∧ 0 <= off < size (chunk_domain c)
         ∧ span_index (span_view c) e = Some (Z.to_nat off).
Proof.
  intros [[_ Hext] Hlen] Hin.
  destruct (linear_is_Some _ _ Hin) as [off Hoff].
  pose proof (linear_bound _ _ _ Hext Hoff) as Hb.
  exists off. split; [done |]. split; [done |].
  apply span_index_Some. exists off. simpl. split; [done |]. split; [lia | done].
Qed.

Lemma chunk_at_is_Some (c : Chunk T) (e : DiscreteElement) :
  chunk_wf c → contains (chunk_domain c) e = true → is_Some (chunk_at c e).
Proof.
  intros Hwf Hin. destruct (chunk_index_is_Some c e Hwf Hin) as (off & _ & Hb & Hidx).
  unfold chunk_at, span_at. rewrite Hidx. simpl.
  apply lookup_lt_is_Some. destruct Hwf as [_ Hlen]. lia.
Qed.

(** Two elements with the same tagged indices, in whatever order, address the
    same value. *)
Lemma chunk_at_Permutation (c : Chunk T) (e e' : DiscreteElement) :
  NoDup e.*1 → e ≡ₚ e' → chunk_at c e = chunk_at c e'.
Proof.
  intros Hnd Hperm. apply span_at_ext. intros t _. by apply uid_Permutation.
Qed.

Lemma contains_2d (D1 D2 : Tag) (r1 r2 : Domain1.DiscreteDomain) (i1 i2 : Z) :
  D1 ≠ D2 →
  contains [(D1, r1); (D2, r2)] [(D1, i1); (D2, i2)]
  = Domain1.contains r1 i1 && (Domain1.contains r2 i2 && true).
Proof.
  intros Hne. unfold contains. cbn [forallb fst snd].
  rewrite uid_head, uid_cons_ne, uid_head by done. done.
Qed.

Lemma valid_2d (D1 D2 : Tag) (r1 r2 : Domain1.DiscreteDomain) :
  valid [(D1, r1); (D2, r2)] → D1 ≠ D2.
Proof.
  intros [Hnd _] ->. unfold tags in Hnd. rewrite !fmap_cons in Hnd.
  apply NoDup_cons in Hnd as [Hfresh _]. apply Hfresh. by left.
Qed.

(** C4.  For a chunk [c] over [Dom<D1,D2>] and valid indices [i1] on [D1]
    and [i2] on [D2], the access with the indices in either positional
    order yields the same element, [c(i2, i1) == c(i1, i2)]: the tags of the
    indices select the dimensions. *)
Theorem access_order_independent (c : Chunk T) (D1 D2 : Tag)
    (r1 r2 : Domain1.DiscreteDomain) (i1 i2 : Z) :
  chunk_wf c →
  chunk_domain c = [(D1, r1); (D2, r2)] →
  Domain1.contains r1 i1 = true →
  Domain1.contains r2 i2 = true →
  chunk_at c [(D2, i2); (D1, i1)] = chunk_at c [(D1, i1); (D2, i2)]
  ∧ is_Some (chunk_at c [(D1, i1); (D2, i2)]).
Proof.
  intros Hwf Hdom H1 H2.
  assert (Hne : D1 ≠ D2).
  { apply (valid_2d D1 D2 r1 r2). rewrite <- Hdom. apply Hwf. }
  split.
  - apply chunk_at_Permutation; [| apply Permutation_swap].
    rewrite !fmap_cons. apply NoDup_cons. split; [| apply NoDup_singleton].
    intros Hin%list_elem_of_singleton. simpl in Hin. congruence.
  - apply chunk_at_is_Some; [done |].
    rewrite Hdom, contains_2d by done. by rewrite H1, H2.
Qed.

(** ** Slices *)

Lemma uid_fresh_head (d : DiscreteDomain) (t : Tag) (u : Z) (e : DiscreteElement) :
  t ∉ tags d → ∀ t', t' ∈ tags d → uid t' ((t, u) :: e) = uid t' e.
Proof. intros Hfresh t' Ht'. apply uid_cons_ne. by intros ->. Qed.

(** The address of an element in the parent is the offset of the slice plus
    its address in the slice. *)
Lemma slice_axis_linear (t : Tag) (u : Z) (d d' : DiscreteDomain)
    (strides strides' : list Z) (off : Z) (e : DiscreteElement) :
  NoDup (tags d) →
  slice_axis t u d strides = Some (d', strides', off) →
  linear d strides ((t, u) :: e) = (λ x, off + x) <$> linear d' strides' e.
Proof.
  revert strides d' strides' off.
  induction d as [| [t0 r0] d IH]; intros [| s0 strides] d' strides' off Hnd Hsl; try done.
  unfold tags in Hnd. rewrite fmap_cons in Hnd. apply NoDup_cons in Hnd as [Hfresh Hnd].
  cbn [slice_axis] in Hsl. cbn [linear]. destruct (decide (t = t0)) as [-> | Hne].
  - destruct (Domain1.contains r0 u) eqn:Hin; [| done]. simpl in Hsl.
    injection Hsl as <- <- <-.
    rewrite uid_head. simpl. rewrite Hin. simpl.
    rewrite (linear_ext d strides _ e) by (by apply uid_fresh_head).
    by destruct (linear d strides e).
  - destruct (slice_axis t u d strides) as [[[d0 st0] off0] |] eqn:Hrec; [| done].
    simpl in Hsl. injection Hsl as <- <- <-.
    rewrite (IH strides d0 st0 off0 Hnd Hrec).
    rewrite uid_cons_ne by done. cbn [linear].
    destruct (uid t0 e) as [u0 |]; [| done]. simpl.
    destruct (Domain1.contains r0 u0); [| done]. simpl.
    destruct (linear d0 st0 e) as [x |]; [| done]. simpl. f_equal. lia.
Qed.

Lemma slice_elem_at (s sl : ChunkSpan T) (t : Tag) (u : Z) (e : DiscreteElement) :
  NoDup (tags (span_domain s)) →
  slice_elem s t u = Some sl →
  span_at sl e = span_at s ((t, u) :: e).
Proof.
  intros Hnd Hsl. unfold slice_elem in Hsl.
  destruct (slice_axis t u (span_domain s) (span_strides s)) as [[[d' st'] off] |] eqn:Hax;
    [| done].
  simpl in Hsl. injection Hsl as <-.
  unfold span_at, span_index. simpl.
  rewrite (slice_axis_linear _ _ _ _ _ _ _ e Hnd Hax).
  destruct (linear d' st' e) as [x |]; [| done]. simpl.
  by replace (span_offset s + (off + x)) with (span_offset s + off + x) by lia.
Qed.

Lemma subrange_contains (sub r : Domain1.DiscreteDomain) (u : Z) :
  subrange sub r = true → Domain1.contains sub u = true → Domain1.contains r u = true.
Proof.
  unfold subrange. rewrite !andb_true_iff, !Z.leb_le, !contains_range. lia.
Qed.

(** Inside the sub-rectangle, parent and slice address the same position. *)
Lemma restrict_axis_linear (t : Tag) (sub : Domain1.DiscreteDomain)
    (d d' : DiscreteDomain) (strides : list Z) (off : Z) (e : DiscreteElement) (u : Z) :
  restrict_axis t sub d strides = Some (d', off) →
  uid t e = Some u →
  Domain1.contains sub u = true →
  linear d strides e = (λ x, off + x) <$> linear d' strides e.
Proof.
  revert strides d' off.
  induction d as [| [t0 r0] d IH]; intros [| s0 strides] d' off Hsl Hu Hin; try done.
  cbn [restrict_axis] in Hsl. destruct (decide (t = t0)) as [-> | Hne].
  - destruct (subrange sub r0) eqn:Hsub; [| done]. simpl in Hsl.
    injection Hsl as <- <-. cbn [linear]. rewrite Hu. simpl.
    rewrite Hin, (subrange_contains _ _ _ Hsub Hin). simpl.
    destruct (linear d strides e) as [x |]; [| done]. simpl. f_equal. lia.
  - destruct (restrict_axis t sub d strides) as [[d0 off0] |] eqn:Hrec; [| done].
    simpl in Hsl. injection Hsl as <- <-. cbn [linear].
    destruct (uid t0 e) as [u0 |]; [| done]. simpl.
    destruct (Domain1.contains r0 u0); [| done]. simpl.
    rewrite (IH strides d0 off0 Hrec Hu Hin).
    destruct (linear d0 strides e) as [x |]; [| done]. simpl. f_equal. lia.
Qed.

Lemma slice_dom_at (s sl : ChunkSpan T) (t : Tag) (sub : Domain1.DiscreteDomain)
    (e : DiscreteElement) (u : Z) :
  slice_dom s t sub = Some sl →
  uid t e = Some u →
  Domain1.contains sub u = true →
  span_at sl e = span_at s e.
Proof.
  intros Hsl Hu Hin. unfold slice_dom in Hsl.
  destruct (restrict_axis t sub (span_domain s) (span_strides s)) as [[d' off] |] eqn:Hax;
    [| done].
  simpl in Hsl. injection Hsl as <-.
  unfold span_at, span_index. simpl.
  rewrite (restrict_axis_linear _ _ _ _ _ _ e u Hax Hu Hin).
  destruct (linear d' (span_strides s) e) as [x |]; [| done]. simpl.
  by replace (span_offset s + (off + x)) with (span_offset s + off + x) by lia.
Qed.

Lemma slice_elem_2d (c : Chunk T) (D1 D2 : Tag) (r1 r2 : Domain1.DiscreteDomain) (i1 : Z) :
  chunk_domain c = [(D1, r1); (D2, r2)] →
  Domain1.contains r1 i1 = true →
  slice_elem (span_view c) D1 i1
  = Some (mkSpan [(D2, r2)] (0 + (i1 - Domain1.front r1) * size [(D2, r2)])
                 [size []] (chunk_data c)).
Proof.
  intros Hdom Hi1. unfold slice_elem, span_view. simpl. rewrite Hdom.
  cbn [slice_axis layout_right]. rewrite decide_True by done.
  rewrite Hi1. done.
Qed.

Lemma slice_dom_2d (c : Chunk T) (D1 D2 : Tag) (r1 r2 sub : Domain1.DiscreteDomain) :
  chunk_domain c = [(D1, r1); (D2, r2)] →
  subrange sub r1 = true →
  slice_dom (span_view c) D1 sub
  = Some (mkSpan [(D1, sub); (D2, r2)]
                 (0 + (Domain1.front sub - Domain1.front r1) * size [(D2, r2)])
                 [size [(D2, r2)]; size []] (chunk_data c)).
Proof.
  intros Hdom Hsub. unfold slice_dom, span_view. simpl. rewrite Hdom.
  cbn [restrict_axis layout_right]. rewrite decide_True by done.
  rewrite Hsub. done.
Qed.

(** C5.  For a chunk [c] over [Dom<D1,D2>], whatever the front of its
    domain: for every valid index [i1] on [D1], the slice [c[i1]] is a span
    over [D2] alone, of the extent of [c] on [D2], and
    [c[i1](i2) == c(i1, i2)] for every valid [i2]; for every subdomain [sub]
    of the range of [D1], the slice [c[sub]] keeps both tags, has the extent
    of [sub] on [D1] and that of [c] on [D2], and its values are those of
    [c] on the indices they share. *)
Theorem slice_consistent (c : Chunk T) (D1 D2 : Tag) (r1 r2 : Domain1.DiscreteDomain) :
  chunk_wf c →
  chunk_domain c = [(D1, r1); (D2, r2)] →
  (∀ i1, Domain1.contains r1 i1 = true →
     ∃ sl, slice_elem (span_view c) D1 i1 = Some sl
       ∧ span_domain sl = [(D2, r2)]
       ∧ span_extent sl D2 = Some (Domain1.extents r2)
       ∧ chunk_extent c D2 = Some (Domain1.extents r2)
       ∧ ∀ i2, Domain1.contains r2 i2 = true →
           span_at sl [(D2, i2)] = chunk_at c [(D1, i1); (D2, i2)]
           ∧ is_Some (span_at sl [(D2, i2)]))
  ∧ (∀ sub, subrange sub r1 = true →
     ∃ sl, slice_dom (span_view c) D1 sub = Some sl
       ∧ span_domain sl = [(D1, sub); (D2, r2)]
       ∧ span_extent sl D1 = Some (Domain1.extents sub)
       ∧ span_extent sl D2 = chunk_extent c D2
       ∧ ∀ i1 i2, Domain1.contains sub i1 = true → Domain1.contains r2 i2 = true →
           span_at sl [(D1, i1); (D2, i2)] = chunk_at c [(D1, i1); (D2, i2)]
           ∧ is_Some (span_at sl [(D1, i1); (D2, i2)])).
Proof.
  intros Hwf Hdom.
  assert (Hne : D1 ≠ D2).
  { apply (valid_2d D1 D2 r1 r2). rewrite <- Hdom. apply Hwf. }
  assert (Hnd : NoDup (tags (span_domain (span_view c)))) by apply Hwf.
  assert (Hext2 : chunk_extent c D2 = Some (Domain1.extents r2)).
  { unfold chunk_extent, span_extent, span_view. simpl. rewrite Hdom.
    cbn [domain_range]. rewrite decide_False, decide_True by done. done. }
  split.
  - intros i1 Hi1. pose proof (slice_elem_2d c D1 D2 r1 r2 i1 Hdom Hi1) as Hsl.
    eexists. split; [exact Hsl |]. split; [done |]. split.
    { unfold span_extent. simpl. by rewrite decide_True. }
    split; [exact Hext2 |].
    intros i2 Hi2. rewrite (slice_elem_at _ _ _ _ _ Hnd Hsl). split; [done |].
    apply chunk_at_is_Some; [done |].
    rewrite Hdom, contains_2d by done. by rewrite Hi1, Hi2.
  - intros sub Hsub. pose proof (slice_dom_2d c D1 D2 r1 r2 sub Hdom Hsub) as Hsl.
    eexists. split; [exact Hsl |]. split; [done |]. split.
    { unfold span_extent. simpl. by rewrite decide_True. }
    split.
    { rewrite Hext2. unfold span_extent. simpl.
      rewrite decide_False, decide_True by done. done. }
    intros i1 i2 Hi1 Hi2.
    rewrite (slice_dom_at _ _ _ _ _ i1 Hsl (uid_head D1 i1 _) Hi1). split; [done |].
    apply chunk_at_is_Some; [done |].
    rewrite Hdom, contains_2d by done.
    by rewrite (subrange_contains _ _ _ Hsub Hi1), Hi2.
Qed.

(** ** Deep copy *)

Lemma span_index_same_shape (s s' : ChunkSpan T) (e : DiscreteElement) :
  same_shape s s' → span_index s' e = span_index s e.
Proof. intros (Hd & Ho & Hs & Hl). unfold span_index. by rewrite Hd, Ho, Hs, Hl. Qed.

Lemma span_index_lt (s : ChunkSpan T) (e : DiscreteElement) (i : nat) :
  span_index s e = Some i → (i < length (span_data s))%nat.
Proof. intros (off & _ & Hb & ->)%span_index_Some. lia. Qed.

(** The copy loop: every element of [l] is read in the source and written
    to its own position of the destination. *)
Lemma deepcopy_loop (src : ChunkSpan T) (l : list DiscreteElement) (dst : ChunkSpan T) :
  Forall (λ e, is_Some (span_at src e)) l →
  Forall (λ e, is_Some (span_index dst e)) l →
  NoDup (span_index dst <$> l) →
  ∃ dst',
    foldl (λ acc e, d ← acc; v ← span_at src e; span_set d e v) (Some dst) l = Some dst'
    ∧ same_shape dst dst'
    ∧ Forall (λ e, span_at dst' e = span_at src e) l
    ∧ ∀ i, Some i ∉ span_index dst <$> l → span_data dst' !! i = span_data dst !! i.
Proof.
  revert dst. induction l as [| e l IH]; intros dst Hsrc Hdst Hnd.
  - exists dst. by repeat split.
  - apply Forall_cons in Hsrc as [[v Hv] Hsrc].
    apply Forall_cons in Hdst as [[i Hi] Hdst].
    rewrite fmap_cons in Hnd. apply NoDup_cons in Hnd as [Hfresh Hnd].
    set (dst1 := mkSpan (span_domain dst) (span_offset dst) (span_strides dst)
                        (<[i := v]> (span_data dst))).
    assert (Hshape1 : same_shape dst dst1).
    { repeat split. simpl. by rewrite length_insert. }
    assert (Hidx1 : ∀ e', span_index dst1 e' = span_index dst e').
    { intros e'. by apply span_index_same_shape. }
    destruct (IH dst1) as (dst' & Hrun & Hshape & Hcopied & Hframe).
    { done. }
    { eapply Forall_impl; [exact Hdst |]. intros e'. simpl. by rewrite Hidx1. }
    { by rewrite (list_fmap_ext _ (span_index dst) l) by (intros; apply Hidx1). }
    assert (Hshape' : same_shape dst dst').
    { destruct Hshape1 as (? & ? & ? & ?), Hshape as (? & ? & ? & ?).
      repeat split; congruence. }
    exists dst'. split; [| split; [done | split]].
    + simpl. rewrite Hv. simpl. unfold span_set at 2. rewrite Hi. simpl. exact Hrun.
    + constructor; [| done].
      rewrite Hv. unfold span_at. rewrite (span_index_same_shape dst dst') by done.
      rewrite Hi. simpl. rewrite Hframe.
      * simpl. apply list_lookup_insert_eq. by eapply span_index_lt.
      * rewrite (list_fmap_ext _ (span_index dst) l) by (intros; apply Hidx1).
        by rewrite <- Hi.
    + intros j Hj. rewrite fmap_cons in Hj. apply not_elem_of_cons in Hj as [Hne Hj].
      rewrite Hframe.
      * simpl. apply list_lookup_insert_ne. congruence.
      * by rewrite (list_fmap_ext _ (span_index dst) l) by (intros; apply Hidx1).
Qed.

Lemma contains_ext (d : DiscreteDomain) (e e' : DiscreteElement) :
  (∀ t, t ∈ tags d → uid t e = uid t e') → contains d e = contains d e'.
Proof.
  unfold contains, tags. induction d as [| a d IH]; intros Hext; [done |].
  cbn [forallb]. rewrite (Hext a.1) by (rewrite fmap_cons; by left).
  rewrite IH; [done |]. intros t Ht. apply Hext. rewrite fmap_cons. by right.
Qed.

Lemma contains_Permutation (d d' : DiscreteDomain) (e : DiscreteElement) :
  d ≡ₚ d' → contains d e = true → contains d' e = true.
Proof. rewrite !contains_Forall. by intros ->. Qed.

Lemma contains_uid (d : DiscreteDomain) (e : DiscreteElement) :
  contains d e = true → Forall (λ t, is_Some (uid t e)) (tags d).
Proof.
  rewrite contains_Forall. unfold tags. rewrite Forall_fmap.
  intros Hall. eapply Forall_impl; [exact Hall |].
  intros a (u & Hu & _). by exists u.
Qed.

Lemma domain_range_elem (d : DiscreteDomain) (t : Tag) (r : Domain1.DiscreteDomain) :
  NoDup (tags d) → (t, r) ∈ d → domain_range t d = Some r.
Proof.
  unfold tags. induction d as [| [t0 r0] d IH]; intros Hnd Hin.
  - by apply elem_of_nil in Hin.
  - rewrite fmap_cons in Hnd. apply NoDup_cons in Hnd as [Hfresh Hnd].
    cbn [domain_range]. apply elem_of_cons in Hin as [[= -> ->] | Hin].
    + by rewrite decide_True.
    + rewrite decide_False; [by apply IH |].
      intros ->. apply Hfresh. apply list_elem_of_fmap. by exists (t0, r).
Qed.

Lemma congruent_Permutation (d d' : DiscreteDomain) :
  NoDup (tags d') → d ≡ₚ d' → congruent d d' = true.
Proof.
  intros Hnd Hperm. unfold congruent. apply andb_true_iff. split.
  - apply bool_decide_eq_true. by rewrite Hperm.
  - apply forallb_forall. intros [t r] Hin. simpl.
    rewrite (domain_range_elem d' t r Hnd).
    + apply Z.eqb_refl.
    + rewrite <- Hperm. by apply list_elem_of_In.
Qed.

(** An element in the domain's own tag order is determined by its indices. *)
Lemma tagged_uid_eq (ts : list Tag) (e1 e2 : DiscreteElement) :
  NoDup ts → tagged_as ts e1 → tagged_as ts e2 →
  (∀ t, t ∈ ts → uid t e1 = uid t e2) → e1 = e2.
Proof.
  unfold tagged_as. intros Hnd. revert e1 e2.
  induction Hnd as [| t ts Hfresh Hnd IH]; intros e1 e2 H1 H2 Heq.
  - apply fmap_nil_inv in H1, H2. congruence.
  - destruct e1 as [| [t1 u1] e1]; [done |]. destruct e2 as [| [t2 u2] e2]; [done |].
    rewrite fmap_cons in H1, H2. simpl in H1, H2.
    injection H1 as -> H1. injection H2 as -> H2.
    pose proof (Heq t ltac:(by left)) as Hu. rewrite !uid_head in Hu.
    injection Hu as ->. f_equal. apply IH; [done | done |].
    intros t' Ht'. specialize (Heq t' ltac:(by right)).
    rewrite !uid_cons_ne in Heq; [done | |]; intros ->; done.
Qed.

(** Distinct elements of the iteration occupy distinct positions of a chunk. *)
Lemma NoDup_chunk_positions (c : Chunk T) :
  chunk_wf c → NoDup (span_index (span_view c) <$> elements (chunk_domain c)).
Proof.
  intros Hwf. apply NoDup_fmap_2_strong; [| apply NoDup_elements].
  intros e1 e2 H1 H2 Hidx.
  destruct Hwf as [[Hnd Hext] Hlen].
  apply (elem_of_elements _ _ Hnd) in H1 as [Ht1 Hc1].
  apply (elem_of_elements _ _ Hnd) in H2 as [Ht2 Hc2].
  assert (Hwf : chunk_wf c) by done.
  destruct (chunk_index_is_Some c e1 Hwf Hc1) as (o1 & Ho1 & Hb1 & Hi1).
  destruct (chunk_index_is_Some c e2 Hwf Hc2) as (o2 & Ho2 & Hb2 & Hi2).
  rewrite Hi1, Hi2 in Hidx. injection Hidx as Hidx.
  apply Z2Nat.inj in Hidx; [| lia | lia]. subst o2.
  apply (tagged_uid_eq (tags (chunk_domain c))); [done | done | done |].
  by apply (linear_inj _ _ _ o1).
Qed.

(** C6.  After [deepcopy(b, a)], the domains of [b] and [a] having the same
    tags and the same range on each tag, in any tag order, [b(e) == a(e)]
    holds exactly for every element [e] of the domain, whatever the order
    of the tags in the element used to index either chunk. *)
Theorem deepcopy_identity (b a : Chunk T) :
  chunk_wf b →
  chunk_wf a →
  chunk_domain b ≡ₚ chunk_domain a →
  ∃ b', chunk_deepcopy b a = Some b'
    ∧ chunk_domain b' = chunk_domain b
    ∧ chunk_wf b'
    ∧ ∀ e, contains (chunk_domain a) e = true →
        chunk_at b' e = chunk_at a e
        ∧ is_Some (chunk_at a e)
        ∧ ∀ e', NoDup e.*1 → e' ≡ₚ e → chunk_at b' e' = chunk_at a e.
Proof.
  intros Hb Ha Hperm.
  assert (Hndb : NoDup (tags (chunk_domain b))) by apply Hb.
  assert (Hnda : NoDup (tags (chunk_domain a))) by apply Ha.
  destruct (deepcopy_loop (span_view a) (elements (chunk_domain b)) (span_view b))
    as (dst' & Hrun & Hshape & Hcopied & _).
  { apply Forall_forall. intros e He.
    apply (elem_of_elements _ _ Hndb) in He as [_ He].
    apply chunk_at_is_Some; [done |]. by apply (contains_Permutation (chunk_domain b)). }
  { apply Forall_forall. intros e He.
    apply (elem_of_elements _ _ Hndb) in He as [_ He].
    destruct (chunk_index_is_Some b e Hb He) as (off & _ & _ & Hidx). by eexists. }
  { by apply NoDup_chunk_positions. }
  destruct Hshape as (Hd' & Ho' & Hs' & Hl').
  assert (Hview : span_view (mkChunk (chunk_domain b) (span_data dst')) = dst').
  { destruct dst'. unfold span_view. simpl in *. congruence. }
  exists (mkChunk (chunk_domain b) (span_data dst')).
  split; [| split; [done | split]].
  - unfold chunk_deepcopy, deepcopy. simpl.
    rewrite congruent_Permutation by done. simpl.
    simpl in Hrun. rewrite Hrun. done.
  - split; [apply Hb |]. simpl. rewrite Hl'. apply Hb.
  - intros e He.
    assert (Heb : contains (chunk_domain b) e = true).
    { by apply (contains_Permutation (chunk_domain a)). }
    pose proof (contains_uid _ _ Heb) as Huid.
    set (ec := select (tags (chunk_domain b)) e).
    assert (Hec : ∀ t, t ∈ tags (chunk_domain b) → uid t e = uid t ec).
    { intros t Ht. symmetry. by apply uid_select. }
    assert (Hin : ec ∈ elements (chunk_domain b)).
    { apply elem_of_elements; [done |]. split; [by apply select_tagged |].
      by rewrite <- (contains_ext _ e ec). }
    assert (Heq : chunk_at (mkChunk (chunk_domain b) (span_data dst')) e = chunk_at a e).
    { unfold chunk_at. rewrite Hview.
      rewrite (span_at_ext dst' e ec) by (by rewrite Hd').
      rewrite Forall_forall in Hcopied. rewrite (Hcopied ec Hin).
      symmetry. apply span_at_ext. intros t Ht. apply Hec.
      simpl in Ht. unfold tags in *. by rewrite Hperm. }
    split; [done |]. split; [by apply chunk_at_is_Some |].
    intros e' Hnd He'. rewrite <- Heq. symmetry. by apply chunk_at_Permutation.
Qed.

Lemma Chunk_fill_wf (d : DiscreteDomain) (f : DiscreteElement → T) :
  valid d → chunk_wf (Chunk_fill d f).
Proof.
  intros Hd. split; [done |]. simpl. rewrite length_fmap. by apply length_elements.
Qed.

Lemma Chunk_new_wf (d : DiscreteDomain) (init : T) :
  valid d → chunk_wf (Chunk_new d init).
Proof.
  intros Hd. split; [done |]. simpl. rewrite length_replicate.
  destruct Hd as [_ Hext]. pose proof (size_nonneg d Hext). lia.
Qed.

End Access.

(** ** The test fixtures *)

Lemma valid_2d_fixture (D1 D2 : Tag) (f n : Z) :
  D1 ≠ D2 → 0 <= n →
  valid [(D1, Domain1.mkDomain f n); (D2, Domain1.mkDomain f n)].
Proof.
  intros Hne Hn. split.
  - unfold tags. rewrite !fmap_cons. apply NoDup_cons. split; [| apply NoDup_singleton].
    intros Hin%list_elem_of_singleton. simpl in Hin. done.
  - by repeat constructor.
Qed.

Lemma access_order_independent_witness :
  chunk_at block_XVx [("Vx", 7); ("X", 5)] = chunk_at block_XVx [("X", 5); ("Vx", 7)]
  ∧ is_Some (chunk_at block_XVx [("X", 5); ("Vx", 7)]).
Proof.
  apply (access_order_independent block_XVx "X" "Vx"
           (Domain1.mkDomain 0 101) (Domain1.mkDomain 0 101) 5 7).
  - apply Chunk_fill_wf, valid_2d_fixture; [done | lia].
  - reflexivity.
  - reflexivity.
  - reflexivity.
Defined.

Lemma slice_consistent_witness :
  (∃ sl, slice_elem (span_view block_nonzero) "X" 101 = Some sl
     ∧ span_domain sl = [("Vx", Domain1.mkDomain 100 101)]
     ∧ span_extent sl "Vx" = Some 101
     ∧ chunk_extent block_nonzero "Vx" = Some 101
     ∧ ∀ i2, Domain1.contains (Domain1.mkDomain 100 101) i2 = true →
         span_at sl [("Vx", i2)] = chunk_at block_nonzero [("X", 101); ("Vx", i2)]
         ∧ is_Some (span_at sl [("Vx", i2)]))
  ∧ (∃ sl, slice_dom (span_view block_nonzero) "X" (Domain1.mkDomain 110 41) = Some sl
     ∧ span_domain sl = [("X", Domain1.mkDomain 110 41); ("Vx", Domain1.mkDomain 100 101)]
     ∧ span_extent sl "X" = Some 41
     ∧ span_extent sl "Vx" = chunk_extent block_nonzero "Vx"
     ∧ ∀ i1 i2, Domain1.contains (Domain1.mkDomain 110 41) i1 = true →
         Domain1.contains (Domain1.mkDomain 100 101) i2 = true →
         span_at sl [("X", i1); ("Vx", i2)] = chunk_at block_nonzero [("X", i1); ("Vx", i2)]
         ∧ is_Some (span_at sl [("X", i1); ("Vx", i2)])).
Proof.
  destruct (slice_consistent block_nonzero "X" "Vx"
              (Domain1.mkDomain 100 101) (Domain1.mkDomain 100 101)) as [Helem Hsub].
  - apply Chunk_fill_wf, valid_2d_fixture; [done | lia].
  - reflexivity.
  - split; [apply (Helem 101) | apply (Hsub (Domain1.mkDomain 110 41))]; reflexivity.
Defined.

Lemma deepcopy_identity_witness :
  ∃ b', chunk_deepcopy block_VxX block_XVx = Some b'
    ∧ chunk_domain b' = chunk_domain block_VxX
    ∧ chunk_wf b'
    ∧ ∀ e, contains (chunk_domain block_XVx) e = true →
        chunk_at b' e = chunk_at block_XVx e
        ∧ is_Some (chunk_at block_XVx e)
        ∧ ∀ e', NoDup e.*1 → e' ≡ₚ e → chunk_at b' e' = chunk_at block_XVx e.
Proof.
  apply (deepcopy_identity block_VxX block_XVx).
  - apply Chunk_new_wf, valid_2d_fixture; [done | lia].
  - apply Chunk_fill_wf, valid_2d_fixture; [done | lia].
  - apply Permutation_swap.
Defined.

(** C6, counterexample.  The destination over [X] from [0] and the source
    over [X] from [5], both of extent [2], have the same tag and the same
    extent, so they are congruent; the element [X = 0] of the destination's
    domain is no element of the source, [a(e)] does not exist there, and
    [deepcopy(b, a)] does not complete. *)
Lemma deepcopy_congruent_fronts_differ :
  congruent (chunk_domain block_X_from_0) (chunk_domain block_X_from_5) = true
  ∧ congruent (chunk_domain block_X_from_5) (chunk_domain block_X_from_0) = true
  ∧ chunk_wf block_X_from_0
  ∧ chunk_wf block_X_from_5
  ∧ contains (chunk_domain block_X_from_0) [("X", 0)] = true
  ∧ chunk_at block_X_from_0 [("X", 0)] = Some 0
  ∧ chunk_at block_X_from_5 [("X", 0)] = None
  ∧ chunk_deepcopy block_X_from_0 block_X_from_5 = None.
Proof.
  assert (Hvalid : ∀ f, valid [("X", Domain1.mkDomain f 2)]).
  { intros f. split.
    - unfold tags. rewrite fmap_cons. apply NoDup_singleton.
    - by repeat constructor. }
  split; [vm_compute; reflexivity |].
  split; [vm_compute; reflexivity |].
  split; [apply Chunk_new_wf, Hvalid |].
  split; [apply Chunk_fill_wf, Hvalid |].
  repeat split; vm_compute; reflexivity.
Qed.

End ChunkProps.

(* ===================================================================== *)
(** * Properties of tagged tuples *)
(* ===================================================================== *)

Module TaggedProps.
Import Tagged.

Section Get.

Context {TagT : Type} `{EqDecision TagT} {ElementType : Type}.

Lemma RankIn_Some (q : TagT) (ts : list TagT) (n : nat) :
  RankIn q ts = Some n → ts !! n = Some q.
Proof.
  revert n. induction ts as [| t ts IH]; intros n Hrank; [done |].
  simpl in Hrank. destruct (decide (q = t)) as [-> | Hne].
  - by injection Hrank as <-.
  - destruct (RankIn q ts) as [m |]; [| done].
    simpl in Hrank. injection Hrank as <-. by apply IH.
Qed.

Lemma RankIn_lookup (q : TagT) (ts : list TagT) (i : nat) :
  NoDup ts → ts !! i = Some q → RankIn q ts = Some i.
Proof.
  intros Hnd. revert i. induction Hnd as [| t ts Hfresh Hnd IH]; intros i Hi; [done |].
  destruct i as [| i]; simpl in *.
  - injection Hi as ->. by rewrite decide_True.
  - rewrite decide_False.
    + by rewrite (IH i Hi).
    + intros ->. apply Hfresh. by eapply list_elem_of_lookup_2.
Qed.

Lemma TaggedTuple_new_Some (ts : list TagT) (params : list ElementType)
    (t : TaggedTuple TagT ElementType) :
  TaggedTuple_new ts params = Some t
  ↔ length params = length ts ∧ t = mkTuple ts params.
Proof.
  unfold TaggedTuple_new. destruct (decide (length params = length ts)).
  - split; [by intros [= <-] | by intros [_ ->]].
  - split; [done | by intros [? _]].
Qed.

(** C10.  For a [TaggedTuple] constructed from one value per tag, in
    declaration order, [get<Tag>(tuple)] goes through the rank of the tag in
    the tag list and returns exactly the value supplied for that tag; this
    holds for every tag of the tuple. *)
Theorem get_returns_supplied (ts : list TagT) (params : list ElementType)
    (t : TaggedTuple TagT ElementType) :
  NoDup ts →
  TaggedTuple_new ts params = Some t →
  (∀ q, get q t = (n ← tag_rank_v q t; std_get n (m_values t)))
  ∧ (∀ i q v, ts !! i = Some q → params !! i = Some v →
       tag_rank_v q t = Some i ∧ get q t = Some v)
  ∧ (∀ q, q ∈ ts →
       ∃ i v, ts !! i = Some q ∧ params !! i = Some v ∧ get q t = Some v).
Proof.
  intros Hnd Hnew. apply TaggedTuple_new_Some in Hnew as [Hlen ->].
  assert (Hget : ∀ i q v, ts !! i = Some q → params !! i = Some v →
            tag_rank_v q (mkTuple ts params) = Some i
            ∧ get q (mkTuple ts params) = Some v).
  { intros i q v Hq Hv. unfold get, tag_rank_v. simpl.
    rewrite (RankIn_lookup q ts i Hnd Hq). done. }
  split; [done |]. split; [exact Hget |].
  intros q Hq. apply list_elem_of_lookup in Hq as [i Hi].
  destruct (lookup_lt_is_Some_2 params i) as [v Hv].
  { rewrite Hlen. by eapply lookup_lt_Some. }
  exists i, v. split; [done |]. split; [done |]. by apply (Hget i q v).
Qed.

End Get.

Lemma get_returns_supplied_witness :
  (∀ q, get q (mkTuple ["X"; "Y"; "T"] [10; 20; 30])
        = (n ← tag_rank_v q (mkTuple ["X"; "Y"; "T"] [10; 20; 30]);
           std_get n (m_values (mkTuple ["X"; "Y"; "T"] [10; 20; 30]))))
  ∧ (∀ i q v, ["X"; "Y"; "T"] !! i = Some q → [10; 20; 30] !! i = Some v →
       tag_rank_v q (mkTuple ["X"; "Y"; "T"] [10; 20; 30]) = Some i
       ∧ get q (mkTuple ["X"; "Y"; "T"] [10; 20; 30]) = Some v)
  ∧ (∀ q, q ∈ ["X"; "Y"; "T"] →
       ∃ i v, ["X"; "Y"; "T"] !! i = Some q ∧ [10; 20; 30] !! i = Some v
              ∧ get q (mkTuple ["X"; "Y"; "T"] [10; 20; 30]) = Some v).
Proof.
  apply (get_returns_supplied (TagT := string) (ElementType := Z)
           ["X"; "Y"; "T"] [10; 20; 30]).
  - apply (bool_decide_unpack _). vm_compute. exact I.
  - reflexivity.
Defined.

End TaggedProps.

(* ===================================================================== *)
(** * Further properties of the periodic sampling *)
(* ===================================================================== *)

Module PeriodicMore.
Import Arith Domain1 Periodic PeriodicQueries ArithFacts PeriodicProps.

Section Generic.

Context {Real : Type} `{RealOps Real}.

(** X1.  [init(a, b, n, n_period)] returns exactly when [a < b], [n > 1],
    [n_period > 1] and the computed step [(b - a)/(n - 1)] is positive; it
    then returns the sampling of origin [a], that step and that period
    count, and the domain of front [0] and extent [n]. *)
Theorem init_Some_iff (a b : Real) (n P : Z) (impl : Impl Real) (d : DiscreteDomain) :
  init a b n P = Some (impl, d)
  <-> Rltb a b = true
      /\ 1 < n
      /\ 1 < P
      /\ Rltb (R_of_Z 0) (Rdiv (Rsub b a) (R_of_Z (n - 1))) = true
      /\ impl = mkImpl a (Rdiv (Rsub b a) (R_of_Z (n - 1))) P
      /\ d = mkDomain 0 n.
Proof.
  unfold init, Impl_new, make, Impl_front. split.
  - intros Hinit.
    destruct (Rltb a b); [| discriminate]. simpl in Hinit.
    destruct (Z.ltb_spec 1 n); [| discriminate]. simpl in Hinit.
    destruct (Z.ltb_spec 1 P); [| discriminate]. simpl in Hinit.
    destruct (Rltb (R_of_Z 0) _); [| discriminate]. simpl in Hinit.
    destruct (Z.ltb_spec 0 P); [| discriminate]. simpl in Hinit.
    destruct (Z.leb_spec 0 n); [| discriminate]. simpl in Hinit.
    injection Hinit as <- <-. repeat split; lia.
  - intros (Hab & Hn & HP & Hstep & -> & ->).
    rewrite Hab, Hstep. simpl.
    rewrite (ltb_true 1 n), (ltb_true 1 P) by lia. simpl.
    rewrite (ltb_true 0 P) by lia. simpl.
    rewrite (leb_true 0 n) by lia. reflexivity.
Qed.

(** X2.  The three domains [init_ghosted] returns beside the ghosted one
    partition it: the pre-ghost starts where the ghosted domain starts, the
    main domain follows it, the post-ghost follows the main domain and ends
    where the ghosted domain ends; every index of the ghosted domain lies in
    exactly one of them. *)
Theorem init_ghosted_partition (a b : Real) (n P g_pre g_post : Z) (impl : Impl Real)
    (main ghosted pre post : DiscreteDomain) :
  init_ghosted a b n P g_pre g_post = Some (impl, main, ghosted, pre, post) ->
  front pre = front ghosted
  /\ back pre + 1 = front main
  /\ back main + 1 = front post
  /\ back post = back ghosted
  /\ forall u : Z,
       contains ghosted u = contains pre u || contains main u || contains post u
       /\ contains pre u && contains main u = false
       /\ contains main u && contains post u = false
       /\ contains pre u && contains post u = false.
Proof.
  intros Hinit.
  apply init_ghosted_Some in Hinit as ((Hn & Hg1 & Hg2) & -> & -> & -> & ->).
  unfold back, contains. simpl.
  do 4 (split; [lia |]).
  intros u.
  destruct (Z.leb_spec 0 u), (Z.ltb_spec u (0 + (n + g_pre + g_post))),
    (Z.ltb_spec u (0 + g_pre)), (Z.leb_spec g_pre u), (Z.ltb_spec u (g_pre + n)),
    (Z.leb_spec (n + g_pre) u), (Z.ltb_spec u (n + g_pre + g_post));
    simpl; repeat split; try reflexivity; lia.
Qed.

(** The remainder of the wrapped sum, cast and shifted: the offset whatever
    the index. *)
Lemma period_offset_wrapped (impl : Impl Real) (uid : Z) :
  0 < m_n_period impl <= 2 ^ 31 ->
  period_offset impl uid
  = wrap_size_t (uid + m_n_period impl / 2) mod m_n_period impl - m_n_period impl / 2.
Proof.
  intros HP. unfold period_offset. set (P := m_n_period impl) in *.
  assert (Hhalf : 0 <= P / 2 <= 2 ^ 30).
  { split; [apply Z.div_pos; lia | apply Z.div_le_upper_bound; lia]. }
  pose proof (Z.mod_pos_bound (wrap_size_t (uid + P / 2)) P ltac:(lia)) as Hmod.
  rewrite !static_cast_int_small by (unfold int_max; lia).
  apply int_sub_small; unfold int_max; lia.
Qed.

(** X3.  For a period count of at most [2^31], the coordinate of every
    index, those beyond which the sum wraps in [std::size_t] included, is
    the origin plus a multiple [k] of the step with [-(P/2) <= k < P - P/2]:
    the sampling never leaves its principal period. *)
Theorem coordinate_in_principal_period (impl : Impl Real) (uid : Z) :
  0 < m_n_period impl <= 2 ^ 31 ->
  - (m_n_period impl / 2) <= period_offset impl uid
                          < m_n_period impl - m_n_period impl / 2
  /\ exists k : Z,
       - (m_n_period impl / 2) <= k < m_n_period impl - m_n_period impl / 2
       /\ coordinate impl uid = Radd (m_origin impl) (Rmul (R_of_Z k) (m_step impl)).
Proof.
  intros HP.
  assert (Hrange : - (m_n_period impl / 2) <= period_offset impl uid
                   < m_n_period impl - m_n_period impl / 2).
  { rewrite period_offset_wrapped by done.
    pose proof (Z.mod_pos_bound (wrap_size_t (uid + m_n_period impl / 2))
                  (m_n_period impl) ltac:(lia)). lia. }
  split; [exact Hrange |]. by exists (period_offset impl uid).
Qed.

(** The offset on the indices of one period. *)
Lemma period_offset_first_period (impl : Impl Real) (uid : Z) :
  0 < m_n_period impl <= 2 ^ 31 ->
  0 <= uid < m_n_period impl ->
  period_offset impl uid
  = if uid <? m_n_period impl - m_n_period impl / 2 then uid else uid - m_n_period impl.
Proof.
  intros HP Huid.
  assert (Hhalf : 0 <= m_n_period impl / 2 <= 2 ^ 30).
  { split; [apply Z.div_pos; lia | apply Z.div_le_upper_bound; lia]. }
  assert (Hfit : 2 ^ 31 + 2 ^ 30 < 2 ^ 64) by reflexivity.
  rewrite period_offset_exact by lia.
  destruct (Z.ltb_spec uid (m_n_period impl - m_n_period impl / 2)).
  - rewrite Z.mod_small by lia. lia.
  - replace ((uid + m_n_period impl / 2) mod m_n_period impl)
      with (uid + m_n_period impl / 2 - m_n_period impl); [lia |].
    assert (m_n_period impl / 2 < m_n_period impl) by (apply Z.div_lt; lia).
    apply Z.mod_unique with (q := 1); lia.
Qed.

(** X4.  On the indices [0 <= uid < P] of one period ([P <= 2^31]) the
    multiplier of the step is [uid] on the first [P - P/2] indices, as for a
    uniform sampling, and [uid - P] on the others; the [P] indices are mapped
    one-to-one onto the multipliers [-(P/2), ..., P - P/2 - 1]. *)
Theorem period_offset_one_period (impl : Impl Real) :
  0 < m_n_period impl <= 2 ^ 31 ->
  (forall uid, 0 <= uid < m_n_period impl ->
     period_offset impl uid
     = if uid <? m_n_period impl - m_n_period impl / 2 then uid
       else uid - m_n_period impl)
  /\ (forall u1 u2, 0 <= u1 < m_n_period impl -> 0 <= u2 < m_n_period impl ->
        period_offset impl u1 = period_offset impl u2 -> u1 = u2)
  /\ (forall k, - (m_n_period impl / 2) <= k < m_n_period impl - m_n_period impl / 2 ->
        exists uid, 0 <= uid < m_n_period impl /\ period_offset impl uid = k).
Proof.
  intros HP.
  assert (Hhalf : 0 <= m_n_period impl / 2 < m_n_period impl).
  { split; [apply Z.div_pos; lia | apply Z.div_lt; lia]. }
  split; [| split].
  - intros uid Huid. by apply period_offset_first_period.
  - intros u1 u2 H1 H2.
    rewrite !period_offset_first_period by done.
    destruct (Z.ltb_spec u1 (m_n_period impl - m_n_period impl / 2)),
      (Z.ltb_spec u2 (m_n_period impl - m_n_period impl / 2)); lia.
  - intros k Hk. destruct (Z_lt_le_dec k 0) as [Hneg | Hpos].
    + exists (k + m_n_period impl). split; [lia |].
      rewrite period_offset_first_period by (done || lia).
      destruct (Z.ltb_spec (k + m_n_period impl) (m_n_period impl - m_n_period impl / 2)); lia.
    + exists k. split; [lia |].
      rewrite period_offset_first_period by (done || lia).
      destruct (Z.ltb_spec k (m_n_period impl - m_n_period impl / 2)); lia.
Qed.

(** X5.  From an index to the next the multiplier of the step grows by one,
    except at the seam of the period, where it falls by [P - 1];
    [distance_at_right] and [distance_at_left] report one step for every
    element, the seam included. *)
Theorem neighbour_offsets (impl : Impl Real) (u : Z) :
  0 < m_n_period impl <= 2 ^ 31 ->
  0 <= u ->
  u + 1 + m_n_period impl / 2 < 2 ^ 64 ->
  period_offset impl (u + 1) - period_offset impl u
  = (if (u + m_n_period impl / 2) mod m_n_period impl =? m_n_period impl - 1
     then 1 - m_n_period impl else 1)
  /\ distance_at_right impl u = m_step impl
  /\ distance_at_left impl (u + 1) = m_step impl.
Proof.
  intros HP Hu Hfit. split; [| by split].
  rewrite !period_offset_exact by lia.
  pose proof (Z.div_mod (u + m_n_period impl / 2) (m_n_period impl) ltac:(lia)) as Hdm.
  pose proof (Z.mod_pos_bound (u + m_n_period impl / 2) (m_n_period impl) ltac:(lia)) as Hm.
  destruct (Z.eqb_spec ((u + m_n_period impl / 2) mod m_n_period impl)
                       (m_n_period impl - 1)) as [Hseam | Hin].
  - replace ((u + 1 + m_n_period impl / 2) mod m_n_period impl) with 0; [lia |].
    apply Z.mod_unique
      with (q := (u + m_n_period impl / 2) / m_n_period impl + 1); lia.
  - replace ((u + 1 + m_n_period impl / 2) mod m_n_period impl)
      with ((u + m_n_period impl / 2) mod m_n_period impl + 1); [lia |].
    apply Z.mod_unique
      with (q := (u + m_n_period impl / 2) / m_n_period impl); lia.
Qed.

(** X6.  For the sampling and the domain [init(a, b, n, n_period)] returns,
    with [n <= n_period <= 2^31]: [rmin] is [a + 0 * step]; [rmax] is
    [a + (n - 1) * step] as long as the domain stays within the first
    [P - P/2] indices, and [a + (n - 1 - P) * step], below [a], beyond; for
    a domain of a whole period, [n = n_period], [rmax] is [a + (-1) * step]. *)
Theorem init_domain_bounds (a b : Real) (n P : Z) (impl : Impl Real) (d : DiscreteDomain) :
  init a b n P = Some (impl, d) ->
  P <= 2 ^ 31 ->
  n <= P ->
  rmin impl d = Radd a (Rmul (R_of_Z 0) (step impl))
  /\ rmax impl d
     = Radd a (Rmul (R_of_Z (if n - 1 <? P - P / 2 then n - 1 else n - 1 - P))
                    (step impl))
  /\ (n = P -> rmax impl d = Radd a (Rmul (R_of_Z (-1)) (step impl))).
Proof.
  intros Hinit HP HnP.
  unfold init, Impl_new, make, Impl_front in Hinit.
  destruct (Rltb a b); [| discriminate]. simpl in Hinit.
  destruct (Z.ltb_spec 1 n) as [Hn |]; [| discriminate]. simpl in Hinit.
  destruct (Z.ltb_spec 1 P) as [H1P |]; [| discriminate]. simpl in Hinit.
  destruct (Rltb (R_of_Z 0) _); [| discriminate]. simpl in Hinit.
  destruct (Z.ltb_spec 0 P); [| discriminate]. simpl in Hinit.
  destruct (Z.leb_spec 0 n); [| discriminate]. simpl in Hinit.
  injection Hinit as <- <-.
  assert (Hhalf : 0 <= P / 2 < P).
  { split; [apply Z.div_pos; lia | apply Z.div_lt; lia]. }
  assert (Hmin : period_offset (mkImpl a (Rdiv (Rsub b a) (R_of_Z (n - 1))) P) 0 = 0).
  { rewrite period_offset_first_period by (simpl; lia). simpl.
    destruct (Z.ltb_spec 0 (P - P / 2)); lia. }
  assert (Hmax : period_offset (mkImpl a (Rdiv (Rsub b a) (R_of_Z (n - 1))) P) (n - 1)
                 = if n - 1 <? P - P / 2 then n - 1 else n - 1 - P).
  { by rewrite period_offset_first_period by (simpl; lia). }
  unfold rmin, rmax, coordinate, back, step. simpl.
  replace (0 + n - 1) with (n - 1) by lia. rewrite Hmin, Hmax.
  split; [done |]. split; [done |].
  intros ->. destruct (Z.ltb_spec (P - 1) (P - P / 2)) as [Hlt | Hge];
    [| do 3 f_equal; lia].
  assert (Hz : P / 2 = 0) by lia.
  apply Z.div_small_iff in Hz; lia.
Qed.

End Generic.

(** Closed bounds, by evaluation. *)
Ltac eval_bounds :=
  repeat split; first [vm_compute; reflexivity | vm_compute; discriminate | lia].

Lemma init_ghosted_partition_witness :
  front (mkDomain 0 1) = front (mkDomain 0 12)
  /\ back (mkDomain 0 1) + 1 = front (mkDomain 1 10)
  /\ back (mkDomain 1 10) + 1 = front (mkDomain 11 1)
  /\ back (mkDomain 11 1) = back (mkDomain 0 12)
  /\ forall u : Z,
       contains (mkDomain 0 12) u
       = contains (mkDomain 0 1) u || contains (mkDomain 1 10) u
         || contains (mkDomain 11 1) u
       /\ contains (mkDomain 0 1) u && contains (mkDomain 1 10) u = false
       /\ contains (mkDomain 1 10) u && contains (mkDomain 11 1) u = false
       /\ contains (mkDomain 0 1) u && contains (mkDomain 11 1) u = false.
Proof.
  apply (init_ghosted_partition 0%float 1%float 10 10 1 1 sampling_S4
           (mkDomain 1 10) (mkDomain 0 12) (mkDomain 0 1) (mkDomain 11 1)).
  vm_compute; reflexivity.
Defined.

Lemma coordinate_in_principal_period_witness :
  - (m_n_period sampling_3 / 2) <= period_offset sampling_3 (2 ^ 64 - 1)
                                < m_n_period sampling_3 - m_n_period sampling_3 / 2
  /\ exists k : Z,
       - (m_n_period sampling_3 / 2) <= k
                                     < m_n_period sampling_3 - m_n_period sampling_3 / 2
       /\ coordinate sampling_3 (2 ^ 64 - 1)
          = Radd (m_origin sampling_3) (Rmul (R_of_Z k) (m_step sampling_3)).
Proof. apply (coordinate_in_principal_period sampling_3 (2 ^ 64 - 1)). eval_bounds. Defined.

Lemma period_offset_one_period_witness :
  (forall uid, 0 <= uid < m_n_period sampling_3 ->
     period_offset sampling_3 uid
     = if uid <? m_n_period sampling_3 - m_n_period sampling_3 / 2 then uid
       else uid - m_n_period sampling_3)
  /\ (forall u1 u2, 0 <= u1 < m_n_period sampling_3 -> 0 <= u2 < m_n_period sampling_3 ->
        period_offset sampling_3 u1 = period_offset sampling_3 u2 -> u1 = u2)
  /\ (forall k, - (m_n_period sampling_3 / 2) <= k
                < m_n_period sampling_3 - m_n_period sampling_3 / 2 ->
        exists uid, 0 <= uid < m_n_period sampling_3 /\ period_offset sampling_3 uid = k).
Proof. apply (period_offset_one_period sampling_3). eval_bounds. Defined.

Lemma neighbour_offsets_witness :
  period_offset sampling_3 (1 + 1) - period_offset sampling_3 1
  = (if (1 + m_n_period sampling_3 / 2) mod m_n_period sampling_3
        =? m_n_period sampling_3 - 1
     then 1 - m_n_period sampling_3 else 1)
  /\ distance_at_right sampling_3 1 = m_step sampling_3
  /\ distance_at_left sampling_3 (1 + 1) = m_step sampling_3.
Proof. apply (neighbour_offsets sampling_3 1); eval_bounds. Defined.

Lemma init_domain_bounds_witness :
  rmin sampling_init_10 (mkDomain 0 10)
  = Radd 0%float (Rmul (R_of_Z 0) (step sampling_init_10))
  /\ rmax sampling_init_10 (mkDomain 0 10)
     = Radd 0%float
            (Rmul (R_of_Z (if 10 - 1 <? 10 - 10 / 2 then 10 - 1 else 10 - 1 - 10))
                  (step sampling_init_10))
  /\ (10 = 10 ->
      rmax sampling_init_10 (mkDomain 0 10)
      = Radd 0%float (Rmul (R_of_Z (-1)) (step sampling_init_10))).
Proof.
  apply (init_domain_bounds 0%float 1%float 10 10 sampling_init_10 (mkDomain 0 10)).
  - vm_compute; reflexivity.
  - eval_bounds.
  - eval_bounds.
Defined.

End PeriodicMore.

(* ===================================================================== *)
(** * Writing to tagged tuples *)
(* ===================================================================== *)

Module TaggedWriteProps.
Import Tagged TaggedWrite TaggedProps.

Section Write.

Context {TagT : Type} `{EqDecision TagT} {ElementType : Type}.

Lemma RankIn_elem (q : TagT) (ts : list TagT) :
  q ∈ ts ↔ is_Some (RankIn q ts).
Proof.
  induction ts as [| t ts IH]; simpl.
  - split; [by intros ?%elem_of_nil | by intros [? ?]].
  - rewrite elem_of_cons. destruct (decide (q = t)) as [-> | Hne].
    + split; [by eexists | by left].
    + rewrite fmap_is_Some, <- IH. split; [by intros [? | ?] | by right].
Qed.

(** X7.  In a tuple constructed with one value per tag, storing [v] through
    [get<Tag>] for a tag of the tuple changes the component of that tag and
    nothing else: [get<Tag>] then returns [v], every other tag keeps its
    value, and the tags and the size are the same.  A tag that is not in the
    tag list has no component to read or write. *)
Theorem set_then_get (ts : list TagT) (params : list ElementType)
    (t : TaggedTuple TagT ElementType) (q : TagT) (v : ElementType) :
  TaggedTuple_new ts params = Some t →
  (q ∈ ts →
   ∃ t', set q v t = Some t'
     ∧ tuple_tags t' = tuple_tags t
     ∧ length (m_values t') = length (m_values t)
     ∧ get q t' = Some v
     ∧ ∀ q', q' ≠ q → get q' t' = get q' t)
  ∧ (q ∉ ts → set q v t = None ∧ get q t = None).
Proof.
  intros Hnew. apply TaggedTuple_new_Some in Hnew as [Hlen ->].
  unfold set, get, tag_rank_v, std_get. simpl. split.
  - intros Hq. apply RankIn_elem in Hq as [n Hn]. rewrite Hn. simpl.
    pose proof (RankIn_Some q ts n Hn) as Hts.
    destruct (lookup_lt_is_Some_2 params n) as [old Hold].
    { rewrite Hlen. by eapply lookup_lt_Some. }
    rewrite Hold. simpl. eexists. split; [done |]. simpl.
    split; [done |]. split; [by rewrite length_insert |]. split.
    + rewrite Hn. simpl. apply list_lookup_insert_eq. by eapply lookup_lt_Some.
    + intros q' Hne. destruct (RankIn q' ts) as [n' |] eqn:Hn'; [| done]. simpl.
      apply list_lookup_insert_ne. intros <-.
      pose proof (RankIn_Some q' ts n Hn') as Hts'. congruence.
  - intros Hq. destruct (RankIn q ts) as [n |] eqn:Hn; [| done].
    exfalso. apply Hq. apply RankIn_elem. by eexists.
Qed.

End Write.

Lemma set_then_get_witness :
  ("Y" ∈ ["X"; "Y"; "T"] →
   ∃ t', set "Y" 25 (mkTuple ["X"; "Y"; "T"] [10; 20; 30]) = Some t'
     ∧ tuple_tags t' = tuple_tags (mkTuple ["X"; "Y"; "T"] [10; 20; 30])
     ∧ length (m_values t') = length (m_values (mkTuple ["X"; "Y"; "T"] [10; 20; 30]))
     ∧ get "Y" t' = Some 25
     ∧ ∀ q', q' ≠ "Y" → get q' t' = get q' (mkTuple ["X"; "Y"; "T"] [10; 20; 30]))
  ∧ ("Y" ∉ ["X"; "Y"; "T"] →
     set "Y" 25 (mkTuple ["X"; "Y"; "T"] [10; 20; 30]) = None
     ∧ get "Y" (mkTuple ["X"; "Y"; "T"] [10; 20; 30]) = None).
Proof.
  apply (set_then_get (TagT := string) (ElementType := Z)
           ["X"; "Y"; "T"] [10; 20; 30]).
  reflexivity.
Defined.

End TaggedWriteProps.

(* ===================================================================== *)
(** * Properties of the heat-equation helpers *)
(* ===================================================================== *)

Module HeatEquationProps.
Import Arith HeatEquation ArithFacts.

Section Helpers.

Context {Real : Type} `{RealOps Real}.

(** The perturbation loop after [m] rounds: the points [1 .. m] have received
    their draw, the others are as they were. *)
Lemma perturb_loop_lookup (draws : nat → Real) (dx : Real) (m : nat)
    (pts : list Real) (i : nat) :
  foldl (λ pts k, alter (λ p, Radd p (Rmul (draws k) dx)) (S k) pts) pts (seq 0 m) !! i
  = if decide (1 ≤ i ≤ m)%nat
    then (λ p, Radd p (Rmul (draws (i - 1)%nat) dx)) <$> pts !! i
    else pts !! i.
Proof.
  induction m as [| m IH].
  - simpl. case_decide; [lia | done].
  - rewrite seq_S, foldl_app. simpl.
    destruct (decide (S m = i)) as [<- | Hne].
    + rewrite list_lookup_alter_eq, IH.
      rewrite decide_False, decide_True by lia.
      destruct (pts !! S m); [| done]. simpl. by rewrite Nat.sub_0_r.
    + rewrite list_lookup_alter_ne, IH by done.
      destruct (decide (1 ≤ i ≤ m)%nat).
      * by rewrite decide_True by lia.
      * by rewrite decide_False by lia.
Qed.

Lemma perturb_loop_length (draws : nat → Real) (dx : Real) (l : list nat)
    (pts : list Real) :
  length (foldl (λ pts k, alter (λ p, Radd p (Rmul (draws k) dx)) (S k) pts) pts l)
  = length pts.
Proof.
  revert pts. induction l as [| k l IH]; intros pts; [done |].
  simpl. by rewrite IH, length_alter.
Qed.

Lemma uniform_points_lookup (n : Z) (lb dx : Real) (i : nat) :
  Z.of_nat i < n →
  uniform_points n lb dx !! i = Some (Radd lb (Rmul (R_of_Z (Z.of_nat i)) dx)).
Proof.
  intros Hi. unfold uniform_points.
  rewrite list_lookup_fmap, lookup_seqZ_lt by done. simpl. by rewrite Z.add_0_l.
Qed.

(** X8.  When [generate_random_vector(n, lower_bound, higher_bound)] returns,
    it returns [n] points; the first is [lower_bound + 0 * dx] and the last
    [lower_bound + (n - 1) * dx], never perturbed; the point of index
    [1 <= i <= n - 2] is [lower_bound + i * dx] plus the [i]-th draw times
    [dx]; and the points pass [std::is_sorted]. *)
Theorem generate_random_vector_points (draws : nat → Real) (n : Z) (lb hb : Real)
    (pts : list Real) :
  generate_random_vector draws n lb hb = Some pts →
  1 < n
  ∧ Z.of_nat (length pts) = n
  ∧ pts !! 0%nat
    = Some (Radd lb (Rmul (R_of_Z 0) (Rdiv (Rsub hb lb) (R_of_Z (n - 1)))))
  ∧ pts !! Z.to_nat (n - 1)
    = Some (Radd lb (Rmul (R_of_Z (n - 1)) (Rdiv (Rsub hb lb) (R_of_Z (n - 1)))))
  ∧ (∀ i : nat, 1 <= Z.of_nat i <= n - 2 →
       pts !! i
       = Some (Radd (Radd lb (Rmul (R_of_Z (Z.of_nat i))
                                   (Rdiv (Rsub hb lb) (R_of_Z (n - 1)))))
                    (Rmul (draws (i - 1)%nat) (Rdiv (Rsub hb lb) (R_of_Z (n - 1))))))
  ∧ is_sorted pts = true.
Proof.
  unfold generate_random_vector, perturb. intros Hgen.
  destruct (Z.ltb_spec 1 n) as [Hn |]; [| discriminate]. simpl in Hgen.
  destruct (Rltb lb hb); [| discriminate]. simpl in Hgen.
  destruct (is_sorted _) eqn:Hsorted; [| discriminate]. simpl in Hgen.
  injection Hgen as <-.
  split; [done |]. split.
  { rewrite perturb_loop_length. unfold uniform_points.
    rewrite length_fmap, length_seqZ. lia. }
  split.
  { rewrite perturb_loop_lookup, decide_False by lia.
    by rewrite uniform_points_lookup by lia. }
  split.
  { rewrite perturb_loop_lookup, decide_False by lia.
    rewrite uniform_points_lookup by lia. by rewrite Z2Nat.id by lia. }
  split; [| done].
  intros i Hi. rewrite perturb_loop_lookup, decide_True by lia.
  by rewrite uniform_points_lookup by lia.
Qed.

Lemma nonempty_last_head (points : list Real) :
  (0 < length points)%nat → ∃ bk fr, last points = Some bk ∧ head points = Some fr.
Proof.
  intros Hlen. destruct points as [| x l]; [simpl in Hlen; lia |].
  destruct (last_is_Some (x :: l)) as [_ [bk Hbk]]; [done |].
  by exists bk, x.
Qed.

(** X9.  [periodic_extrapolation_left(gw, points)] returns exactly when
    [0 <= gw < points.size()] and the points pass [std::is_sorted]; it then
    returns [gw] ghosts, the ghost of index [j] being the point of index
    [size - 1 - gw + j] minus the period [points.back() - points.front()]:
    the [gw] points before the last one, in their order; for [gw = 0] the
    result is empty. *)
Theorem periodic_extrapolation_left_ghosts (gw : Z) (points : list Real) :
  (is_Some (periodic_extrapolation_left gw points)
   ↔ 0 <= gw < Z.of_nat (length points) ∧ is_sorted points = true)
  ∧ ∀ ghost, periodic_extrapolation_left gw points = Some ghost →
      length ghost = Z.to_nat gw
      ∧ ∀ j : nat, (j < Z.to_nat gw)%nat →
          ∃ bk fr p,
            last points = Some bk ∧ head points = Some fr
            ∧ points !! (length points - 1 - Z.to_nat gw + j)%nat = Some p
            ∧ ghost !! j = Some (Rsub p (Rsub bk fr)).
Proof.
  unfold periodic_extrapolation_left. split.
  - destruct (Z.leb_spec 0 gw); simpl; [| split; [by intros [? ?] | lia]].
    destruct (Z.ltb_spec gw (Z.of_nat (length points))); simpl;
      [| split; [by intros [? ?] | lia]].
    destruct (is_sorted points); simpl; [| split; [by intros [? ?] | by intros [_ ?]]].
    split; [done |]. intros _.
    destruct (0 <? gw); [| by eexists].
    destruct (nonempty_last_head points) as (bk & fr & -> & ->); [lia |]. by eexists.
  - intros ghost Hleft.
    destruct (Z.leb_spec 0 gw); [| discriminate]. simpl in Hleft.
    destruct (Z.ltb_spec gw (Z.of_nat (length points))); [| discriminate]. simpl in Hleft.
    destruct (is_sorted points); [| discriminate]. simpl in Hleft.
    destruct (Z.ltb_spec 0 gw).
    + destruct (last points) as [bk |]; [| discriminate]. simpl in Hleft.
      destruct (head points) as [fr |]; [| discriminate]. simpl in Hleft.
      injection Hleft as <-.
      assert (Hlen : length (take (Z.to_nat gw) (drop 1 (reverse points))) = Z.to_nat gw).
      { rewrite length_take, length_drop, length_reverse. lia. }
      split; [by rewrite length_reverse, length_fmap |].
      intros j Hj.
      destruct (lookup_lt_is_Some_2 points (length points - 1 - Z.to_nat gw + j))
        as [p Hp]; [lia |].
      exists bk, fr, p. split; [done |]. split; [done |]. split; [done |].
      rewrite reverse_lookup by (rewrite length_fmap, Hlen; lia).
      rewrite length_fmap, Hlen, list_lookup_fmap.
      rewrite lookup_take_lt, lookup_drop by lia.
      rewrite reverse_lookup by lia.
      replace (length points - S (1 + (Z.to_nat gw - S j)))%nat
        with (length points - 1 - Z.to_nat gw + j)%nat by lia.
      by rewrite Hp.
    + injection Hleft as <-. rewrite length_replicate. split; [done |]. lia.
Qed.

(** X10.  [periodic_extrapolation_right(gw, points)] returns exactly when
    [0 <= gw < points.size()] and the points pass [std::is_sorted]; it then
    returns [gw] ghosts, the ghost of index [j] being the point of index
    [j + 1] plus the period [points.back() - points.front()]: the [gw]
    points after the first one. *)
Theorem periodic_extrapolation_right_ghosts (gw : Z) (points : list Real) :
  (is_Some (periodic_extrapolation_right gw points)
   ↔ 0 <= gw < Z.of_nat (length points) ∧ is_sorted points = true)
  ∧ ∀ ghost, periodic_extrapolation_right gw points = Some ghost →
      length ghost = Z.to_nat gw
      ∧ ∀ j : nat, (j < Z.to_nat gw)%nat →
          ∃ bk fr p,
            last points = Some bk ∧ head points = Some fr
            ∧ points !! (j + 1)%nat = Some p
            ∧ ghost !! j = Some (Radd p (Rsub bk fr)).
Proof.
  unfold periodic_extrapolation_right. split.
  - destruct (Z.leb_spec 0 gw); simpl; [| split; [by intros [? ?] | lia]].
    destruct (Z.ltb_spec gw (Z.of_nat (length points))); simpl;
      [| split; [by intros [? ?] | lia]].
    destruct (is_sorted points); simpl; [| split; [by intros [? ?] | by intros [_ ?]]].
    split; [done |]. intros _.
    destruct (0 <? gw); [| by eexists].
    destruct (nonempty_last_head points) as (bk & fr & -> & ->); [lia |]. by eexists.
  - intros ghost Hright.
    destruct (Z.leb_spec 0 gw); [| discriminate]. simpl in Hright.
    destruct (Z.ltb_spec gw (Z.of_nat (length points))); [| discriminate]. simpl in Hright.
    destruct (is_sorted points); [| discriminate]. simpl in Hright.
    destruct (Z.ltb_spec 0 gw).
    + destruct (last points) as [bk |]; [| discriminate]. simpl in Hright.
      destruct (head points) as [fr |]; [| discriminate]. simpl in Hright.
      injection Hright as <-.
      split; [rewrite length_fmap, length_take, length_drop; lia |].
      intros j Hj.
      destruct (lookup_lt_is_Some_2 points (j + 1)) as [p Hp]; [lia |].
      exists bk, fr, p. split; [done |]. split; [done |]. split; [done |].
      rewrite list_lookup_fmap, lookup_take_lt, lookup_drop by lia.
      replace (1 + j)%nat with (j + 1)%nat by lia. by rewrite Hp.
    + injection Hright as <-. rewrite length_replicate. split; [done |]. lia.
Qed.

End Helpers.

(** ** In double precision *)

Lemma generate_random_vector_points_witness :
  generate_random_vector (λ _, 0.0625%float) 5 0%float 1%float
  = Some [0%float; 0.265625%float; 0.515625%float; 0.765625%float; 1%float]
  ∧ Z.of_nat (length [0%float; 0.265625%float; 0.515625%float; 0.765625%float; 1%float]) = 5
  ∧ is_sorted [0%float; 0.265625%float; 0.515625%float; 0.765625%float; 1%float] = true.
Proof.
  split; [vm_compute; reflexivity |].
  split.
  - apply (generate_random_vector_points (Real := float) (λ _, 0.0625%float) 5
             0%float 1%float
             [0%float; 0.265625%float; 0.515625%float; 0.765625%float; 1%float]).
    vm_compute; reflexivity.
  - vm_compute; reflexivity.
Defined.

Lemma periodic_extrapolation_left_ghosts_witness :
  periodic_extrapolation_left 2 [0%float; 0.125%float; 0.25%float; 0.5%float; 1%float]
  = Some [(-0.75)%float; (-0.5)%float]
  ∧ length [(-0.75)%float; (-0.5)%float] = Z.to_nat 2.
Proof.
  split; [vm_compute; reflexivity |].
  apply (proj2 (periodic_extrapolation_left_ghosts (Real := float) 2
                  [0%float; 0.125%float; 0.25%float; 0.5%float; 1%float])
               [(-0.75)%float; (-0.5)%float]).
  vm_compute; reflexivity.
Defined.

Lemma periodic_extrapolation_right_ghosts_witness :
  periodic_extrapolation_right 2 [0%float; 0.125%float; 0.25%float; 0.5%float; 1%float]
  = Some [1.125%float; 1.25%float]
  ∧ length [1.125%float; 1.25%float] = Z.to_nat 2.
Proof.
  split; [vm_compute; reflexivity |].
  apply (proj2 (periodic_extrapolation_right_ghosts (Real := float) 2
                  [0%float; 0.125%float; 0.25%float; 0.5%float; 1%float])
               [1.125%float; 1.25%float]).
  vm_compute; reflexivity.
Defined.

End HeatEquationProps.

(* ===================================================================== *)
(** * Properties of the kernels *)
(* ===================================================================== *)

Module KernelProps.
Import Arith Domain Chunks Kernels ArithFacts DomainProps ChunkProps.

Section Loops.

Context {T : Type}.

(** A loop body that stores, at the position of the element it is given, a
    value computed from the element and the value found there. *)
Variable step : ChunkSpan T → DiscreteElement → option (ChunkSpan T).
Variable new : DiscreteElement → T → T.
Hypothesis step_writes : ∀ s e i old,
  span_index s e = Some i →
  span_data s !! i = Some old →
  step s e = Some (mkSpan (span_domain s) (span_offset s) (span_strides s)
                          (<[i := new e old]> (span_data s))).

(** Over elements of pairwise distinct positions such a loop updates the
    position of each element once and leaves the others alone. *)
Lemma update_loop (l : list DiscreteElement) (dst : ChunkSpan T) :
  Forall (λ e, is_Some (span_index dst e)) l →
  NoDup (span_index dst <$> l) →
  ∃ dst',
    foldl (λ acc e, d ← acc; step d e) (Some dst) l = Some dst'
    ∧ same_shape dst dst'
    ∧ Forall (λ e, ∃ i old, span_index dst e = Some i
                            ∧ span_data dst !! i = Some old
                            ∧ span_data dst' !! i = Some (new e old)) l
    ∧ ∀ i, Some i ∉ span_index dst <$> l → span_data dst' !! i = span_data dst !! i.
Proof.
  revert dst. induction l as [| e l IH]; intros dst Hdst Hnd.
  - exists dst. by repeat split.
  - apply Forall_cons in Hdst as [[i Hi] Hdst].
    rewrite fmap_cons in Hnd. apply NoDup_cons in Hnd as [Hfresh Hnd].
    pose proof (span_index_lt dst e i Hi) as Hlt.
    destruct (lookup_lt_is_Some_2 (span_data dst) i Hlt) as [old Hold].
    set (dst1 := mkSpan (span_domain dst) (span_offset dst) (span_strides dst)
                        (<[i := new e old]> (span_data dst))).
    assert (Hshape1 : same_shape dst dst1).
    { repeat split. simpl. by rewrite length_insert. }
    assert (Hidx1 : ∀ e', span_index dst1 e' = span_index dst e').
    { intros e'. by apply span_index_same_shape. }
    assert (Hpos : span_index dst1 <$> l = span_index dst <$> l).
    { apply list_fmap_ext. intros; apply Hidx1. }
    destruct (IH dst1) as (dst' & Hrun & Hshape & Hupd & Hframe).
    { eapply Forall_impl; [exact Hdst |]. intros e'. simpl. by rewrite Hidx1. }
    { by rewrite Hpos. }
    rewrite Hpos in Hframe.
    exists dst'. split; [| split; [| split]].
    + simpl. rewrite (step_writes dst e i old Hi Hold). exact Hrun.
    + destruct Hshape1 as (? & ? & ? & ?), Hshape as (? & ? & ? & ?).
      repeat split; congruence.
    + constructor.
      * exists i, old. split; [done |]. split; [done |].
        rewrite Hframe by (by rewrite <- Hi). simpl.
        by apply list_lookup_insert_eq.
      * apply Forall_forall. intros e' He'.
        rewrite Forall_forall in Hupd.
        destruct (Hupd e' He') as (i' & old' & Hi' & Hold' & Hnew').
        rewrite Hidx1 in Hi'. exists i', old'. split; [done |]. split; [| done].
        simpl in Hold'. rewrite list_lookup_insert_ne in Hold'; [done |].
        intros <-. apply Hfresh. rewrite Hi, <- Hi'.
        apply list_elem_of_fmap. by exists e'.
    + intros j Hj. rewrite fmap_cons in Hj. apply not_elem_of_cons in Hj as [Hne Hj].
      rewrite Hframe by done. simpl. apply list_lookup_insert_ne. congruence.
Qed.

End Loops.

Section Positions.

Context {T : Type}.

(** Every position of the buffer of a chunk is the position of an element of
    its domain. *)
Lemma chunk_positions_cover (c : Chunk T) (i : nat) :
  chunk_wf c →
  (i < length (chunk_data c))%nat →
  ∃ e, e ∈ elements (chunk_domain c) ∧ span_index (span_view c) e = Some i.
Proof.
  intros Hwf Hi.
  assert (Hperm : span_index (span_view c) <$> elements (chunk_domain c)
                  ≡ₚ Some <$> seq 0 (length (chunk_data c))).
  { apply submseteq_length_Permutation.
    - apply NoDup_submseteq; [by apply NoDup_chunk_positions |].
      intros p (e & -> & He)%list_elem_of_fmap.
      apply elem_of_elements in He as [_ He]; [| apply Hwf].
      destruct (chunk_index_is_Some c e Hwf He) as (off & _ & Hb & ->).
      apply list_elem_of_fmap. exists (Z.to_nat off). split; [done |].
      apply elem_of_seq. destruct Hwf as [_ Hlen]. lia.
    - rewrite !length_fmap, length_seq.
      destruct Hwf as [Hd Hlen]. pose proof (length_elements _ Hd). lia. }
  assert (Hin : Some i ∈ span_index (span_view c) <$> elements (chunk_domain c)).
  { rewrite Hperm. apply list_elem_of_fmap. exists i. split; [done |].
    apply elem_of_seq. lia. }
  apply list_elem_of_fmap in Hin as (e & Hidx & He). by exists e.
Qed.

End Positions.

(** X11.  [parallel_for_each] with the kernel [view(i) += 1], over a view of
    a chunk of the domain initialised to zero, completes under every
    schedule of the execution space and leaves the value one in every
    position of the buffer: the count of ones is the size of the domain. *)
Theorem parallel_increment_all_ones (d : DiscreteDomain) (sched : list nat) :
  valid d →
  schedule_of (size d) sched →
  ∃ view',
    parallel_for_each sched d increment_kernel (Some (span_view (Chunk_new d 0)))
    = Some (Some view')
    ∧ span_data view' = replicate (Z.to_nat (size d)) 1.
Proof.
  intros Hd Hsched.
  pose proof (Chunk_new_wf d 0 Hd) as Hwf.
  set (c := Chunk_new d 0) in *.
  destruct (parallel_for_each_in_calls sched (elements d)) as (calls & Hperm & Hrun).
  { eapply schedule_of_length; [| exact Hsched]. by apply length_elements. }
  destruct (update_loop (λ s e, v ← span_at s e; span_set s e (v + 1))
                        (λ _ old, old + 1)) with (l := calls) (dst := span_view c)
    as (view' & Hloop & Hshape & Hupd & _).
  { intros s e i old Hi Hold. unfold span_at, span_set. rewrite Hi. simpl.
    rewrite Hold. done. }
  { apply Forall_forall. intros e He. rewrite Hperm in He.
    apply elem_of_elements in He as [_ He]; [| apply Hd].
    destruct (chunk_index_is_Some c e Hwf He) as (off & _ & _ & Hidx). by eexists. }
  { rewrite Hperm. by apply NoDup_chunk_positions. }
  exists view'. split.
  - unfold parallel_for_each. rewrite Hrun. f_equal. exact Hloop.
  - destruct Hshape as (_ & _ & _ & Hlen). simpl in Hlen.
    rewrite length_replicate in Hlen.
    apply (list_eq_same_length _ _ (Z.to_nat (size d))).
    + apply length_replicate.
    + exact Hlen.
    + intros i x y Hi Hx Hy.
      apply lookup_replicate in Hy as [-> _].
      destruct (chunk_positions_cover c i Hwf) as (e & He & Hidx).
      { simpl. by rewrite length_replicate. }
      change (e ∈ elements d) in He. rewrite <- Hperm in He. rewrite Forall_forall in Hupd.
      destruct (Hupd e He) as (i' & old & Hi' & Hold & Hnew).
      rewrite Hidx in Hi'. injection Hi' as <-.
      simpl in Hold. apply lookup_replicate in Hold as [-> _].
      rewrite Hx in Hnew. by injection Hnew.
Qed.

Lemma parallel_increment_all_ones_witness :
  ∃ view',
    parallel_for_each (reverse (seq 0 120))
      [("DDimX", Domain1.mkDomain 0 10); ("DDimY", Domain1.mkDomain 0 12)]
      increment_kernel
      (Some (span_view (Chunk_new [("DDimX", Domain1.mkDomain 0 10);
                                   ("DDimY", Domain1.mkDomain 0 12)] 0)))
    = Some (Some view')
    ∧ span_data view'
      = replicate (Z.to_nat (size [("DDimX", Domain1.mkDomain 0 10);
                                   ("DDimY", Domain1.mkDomain 0 12)])) 1.
Proof.
  apply (parallel_increment_all_ones
           [("DDimX", Domain1.mkDomain 0 10); ("DDimY", Domain1.mkDomain 0 12)]
           (reverse (seq 0 120))).
  - split.
    + unfold tags. rewrite !fmap_cons. apply NoDup_cons.
      split; [| apply NoDup_singleton].
      intros Hin%list_elem_of_singleton. simpl in Hin. done.
    + by repeat constructor.
  - unfold schedule_of. apply reverse_Permutation.
Defined.

Section CosineFill.

Context {Real : Type} `{RealOps Real}.
Variable Rcos : Real → Real.
Variable ipow : Real → Z → Real.
Variable pi : Real.
Variable coordinate : DiscreteElement → Real.

(** X12.  [CosineEvaluator::Evaluator::deriv(chunk, derivative)], run on the
    view of a chunk, completes, keeps the shape of the view and leaves in
    every element [e] of the domain the value
    [eval(coordinate(e), derivative)], whatever the chunk held before;
    [operator()(chunk)] is the same call with derivative 0. *)
Theorem deriv_chunk_fills (ev : Evaluator) (c : Chunk Real) (derivative : Z) :
  chunk_wf c →
  ∃ s',
    deriv_chunk Rcos ipow pi coordinate ev (span_view c) derivative = Some s'
    ∧ same_shape (span_view c) s'
    ∧ (∀ e, e ∈ elements (chunk_domain c) →
            span_at s' e = Some (eval Rcos ipow pi ev (coordinate e) derivative))
    ∧ eval_chunk Rcos ipow pi coordinate ev (span_view c)
      = deriv_chunk Rcos ipow pi coordinate ev (span_view c) 0.
Proof.
  intros Hwf.
  destruct (update_loop
              (λ s e, span_set s e (eval Rcos ipow pi ev (coordinate e) derivative))
              (λ e _, eval Rcos ipow pi ev (coordinate e) derivative))
    with (l := elements (chunk_domain c)) (dst := span_view c)
    as (s' & Hloop & Hshape & Hupd & _).
  { intros s e i old Hi _. unfold span_set. by rewrite Hi. }
  { apply Forall_forall. intros e He.
    apply elem_of_elements in He as [_ He]; [| apply Hwf].
    destruct (chunk_index_is_Some c e Hwf He) as (off & _ & _ & Hidx). by eexists. }
  { by apply NoDup_chunk_positions. }
  exists s'. split; [exact Hloop |]. split; [exact Hshape |]. split; [| done].
  intros e He. rewrite Forall_forall in Hupd.
  destruct (Hupd e He) as (i & old & Hi & _ & Hnew).
  unfold span_at. rewrite (span_index_same_shape _ _ e Hshape), Hi. exact Hnew.
Qed.

End CosineFill.

Lemma deriv_chunk_fills_witness :
  ∃ s',
    deriv_chunk test_cos test_ipow 3.140625%float test_coordinate (mkEvaluator 1%float 0%float)
                (span_view (Chunk_new [("X", Domain1.mkDomain 2 4)] 0%float)) 1
    = Some s'
    ∧ same_shape (span_view (Chunk_new [("X", Domain1.mkDomain 2 4)] 0%float)) s'
    ∧ (∀ e, e ∈ elements (chunk_domain (Chunk_new [("X", Domain1.mkDomain 2 4)] 0%float)) →
            span_at s' e
            = Some (eval test_cos test_ipow 3.140625%float (mkEvaluator 1%float 0%float)
                         (test_coordinate e) 1))
    ∧ eval_chunk test_cos test_ipow 3.140625%float test_coordinate (mkEvaluator 1%float 0%float)
                 (span_view (Chunk_new [("X", Domain1.mkDomain 2 4)] 0%float))
      = deriv_chunk test_cos test_ipow 3.140625%float test_coordinate (mkEvaluator 1%float 0%float)
                    (span_view (Chunk_new [("X", Domain1.mkDomain 2 4)] 0%float)) 0.
Proof.
  apply (deriv_chunk_fills test_cos test_ipow 3.140625%float test_coordinate
           (mkEvaluator 1%float 0%float) (Chunk_new [("X", Domain1.mkDomain 2 4)] 0%float) 1).
  apply Chunk_new_wf. split.
  - unfold tags. rewrite fmap_cons. apply NoDup_singleton.
  - by repeat constructor.
Defined.

End KernelProps.
